(** * Spherique: a Verlet particle simulation, embedded and verified

    The program (src/Spherique.py) computes with Python floats and pygame
    [Vector2] values.  The embedding is generic in the number type: every
    function of the program is written once, over an interface [Arith] of the
    arithmetic operations the source uses.  Control flow, list and dictionary
    manipulation, error propagation and the order of the operations are
    thereby modelled independently of how numbers are represented.

    What is proved of the structure of the program (capacity, eviction,
    reproducibility, what [Ball.update] assigns, how the color pass fails)
    is proved for every instance of the interface, binary64 included.  What
    depends on the laws of arithmetic (containment, the mass-weighted
    corrections, the reach of the grid, the range of the spawn radius) is
    proved for the instance of the real numbers: it is the behaviour of the
    program up to rounding.  Where rounding decides, the instance of
    binary64 floats is evaluated. *)

From Stdlib Require Import ZArith Reals Lra Lia List String Ascii.
From Stdlib Require PrimFloat SpecFloat FloatOps QArith.
From stdpp Require Import gmap list pretty.

Set Default Proof Using "Type".

(** ** The arithmetic the program uses *)

Class Arith (T : Type) := {
  of_int : Z -> T;                 (* a Python int used in float arithmetic *)
  add : T -> T -> T;
  sub : T -> T -> T;
  mul : T -> T -> T;
  div : T -> T -> T;                (* [/] on a divisor that is not zero *)
  neg : T -> T;
  ltb : T -> T -> bool;             (* [<] *)
  eqb : T -> T -> bool;             (* [==] *)
  floordiv : T -> T -> T;           (* [//] *)
  to_int : T -> Z;                  (* [int(x)]: truncation towards zero *)
  sqrt : T -> T;                    (* [math.sqrt] *)
  pi : T                            (* [math.pi] *)
}.

Declare Scope num_scope.
Delimit Scope num_scope with num.
Infix "+" := add : num_scope.
Infix "-" := sub : num_scope.
Infix "*" := mul : num_scope.
Infix "/" := div : num_scope.
Notation "- a" := (neg a) : num_scope.
Infix "<?" := ltb : num_scope.
Infix "=?" := eqb : num_scope.

(** ** Exceptions *)

Inductive exn : Set :=
| ZeroDivisionError
| IndexError
| FileNotFoundError
| AttributeError.

Inductive result (A : Type) : Type :=
| Ok (a : A)
| Raise (e : exn).
Arguments Ok {A} a.
Arguments Raise {A} e.

Definition bind {A B} (m : result A) (k : A -> result B) : result B :=
  match m with
  | Ok a => k a
  | Raise e => Raise e
  end.

Notation "x <- m ;; k" := (bind m (fun x => k))
  (at level 100, m at next level, right associativity).

Definition rmap {A B} (f : A -> B) (m : result A) : result B :=
  x <- m ;; Ok (f x).

(** [for a in l: s = body(a, s)], stopping at the first exception. *)
Fixpoint for_each {A S} (body : A -> S -> result S) (l : list A) (s : S) : result S :=
  match l with
  | [] => Ok s
  | a :: l' => s' <- body a s ;; for_each body l' s'
  end.

(** ** Config *)

Module Config.
Definition WIDTH : Z := 1000.
Definition HEIGHT : Z := 1000.
Definition MIN_RADIUS : Z := 5.
Definition MAX_RADIUS : Z := 28.
Definition SPAWN_INTERVAL : Z := 1.
Definition TOTAL_STEPS : Z := 1000.
Definition SUBSTEPS : nat := 8.
Definition MAX_OBJECTS : nat := 900.
Definition CELL_SIZE : Z := MAX_RADIUS * 2.
End Config.
Import Config.

Section Physics.
Context {T : Type} {arith : Arith T}.
Local Open Scope num_scope.

Definition BOUNCE_LOSS : T := of_int 9 / of_int 10.            (* 0.9 *)
Definition COLLISION_DAMPING : T := of_int 95 / of_int 100.    (* 0.95 *)
Definition FIXED_DT : T := of_int 1 / of_int 60.               (* 1 / 60.0 *)

(** *** pygame.math.Vector2 *)

Record Vector2 : Type := vec2 { x : T; y : T }.

Definition vadd (a b : Vector2) : Vector2 := vec2 (x a + x b) (y a + y b).
Definition vsub (a b : Vector2) : Vector2 := vec2 (x a - x b) (y a - y b).
Definition vscale (a : Vector2) (k : T) : Vector2 := vec2 (x a * k) (y a * k).
Definition length_squared (a : Vector2) : T := x a * x a + y a * y a.

(** [v / k]: pygame raises on a zero divisor and otherwise multiplies the
    components by the reciprocal. *)
Definition vdiv (a : Vector2) (k : T) : result Vector2 :=
  if k =? of_int 0 then Raise ZeroDivisionError
  else Ok (vscale a (of_int 1 / k)).

(** [a / b] on floats. *)
Definition fdiv (a b : T) : result T :=
  if b =? of_int 0 then Raise ZeroDivisionError else Ok (a / b).

Definition GRAVITY : Vector2 := vec2 (of_int 0) (of_int 981).

(** *** Ball *)

Record Ball : Type := mkBall {
  position : Vector2;
  old_position : Vector2;
  acceleration : Vector2;
  radius : T;
  mass : T;
  step_added : Z;
  color : Z * Z * Z
}.

(** [Ball.__init__] with an explicit colour. *)
Definition new_ball (pos : Vector2) (r : T) (step : Z) (c : Z * Z * Z) : Ball :=
  {| position := pos;
     old_position := pos;
     acceleration := vec2 (of_int 0) (of_int 0);
     radius := r;
     mass := pi * (r * r);
     step_added := step;
     color := c |}.

Definition set_position (b : Ball) (p : Vector2) : Ball :=
  mkBall p (old_position b) (acceleration b) (radius b) (mass b) (step_added b) (color b).
Definition set_old_position (b : Ball) (p : Vector2) : Ball :=
  mkBall (position b) p (acceleration b) (radius b) (mass b) (step_added b) (color b).
Definition set_acceleration (b : Ball) (a : Vector2) : Ball :=
  mkBall (position b) (old_position b) a (radius b) (mass b) (step_added b) (color b).

(** The guard [mass > 0] excludes the zero divisor, so the division of the
    force by the mass cannot raise. *)
Definition accelerate (b : Ball) (force : Vector2) : Ball :=
  if of_int 0 <? mass b
  then set_acceleration b (vadd (acceleration b) (vscale force (of_int 1 / mass b)))
  else b.

Definition update (b : Ball) (dt : T) : Ball :=
  let velocity := vsub (position b) (old_position b) in
  let b := set_old_position b (position b) in
  let b := set_position b
             (vadd (position b) (vadd velocity (vscale (vscale (acceleration b) dt) dt))) in
  set_acceleration b (vec2 (of_int 0) (of_int 0)).

Definition apply_constraints (b : Ball) : Ball :=
  let velocity := vsub (position b) (old_position b) in
  let '(px, velx) :=
    if x (position b) - radius b <? of_int 0
    then (radius b, - x velocity * BOUNCE_LOSS)
    else if of_int WIDTH <? x (position b) + radius b
    then (of_int WIDTH - radius b, - x velocity * BOUNCE_LOSS)
    else (x (position b), x velocity) in
  let '(py, vely) :=
    if y (position b) - radius b <? of_int 0
    then (radius b, - y velocity * BOUNCE_LOSS)
    else if of_int HEIGHT <? y (position b) + radius b
    then (of_int HEIGHT - radius b, - y velocity * BOUNCE_LOSS)
    else (y (position b), y velocity) in
  let b := set_position b (vec2 px py) in
  set_old_position b (vsub (position b) (vscale (vec2 velx vely) COLLISION_DAMPING)).

(** *** The uniform grid

    The grid buckets of the source hold references to the [Ball] objects of
    [self.balls]; the balls are mutated in place while the buckets are read.
    Here a ball is named by its index in [self.balls], a bucket is a list of
    indices, and a mutation of a ball is an update of the list at its index:
    [b1 is b2] is equality of indices. *)

Definition get_cell (pos : Vector2) : Z * Z :=
  (to_int (floordiv (x pos) (of_int CELL_SIZE)),
   to_int (floordiv (y pos) (of_int CELL_SIZE))).

Definition bucket (grid : gmap (Z * Z) (list nat)) (cell : Z * Z) : list nat :=
  default [] (grid !! cell).

(** [self.grid[cell].append(b)] on a [defaultdict(list)]. *)
Definition grid_append (grid : gmap (Z * Z) (list nat)) (cell : Z * Z) (i : nat)
  : gmap (Z * Z) (list nat) :=
  <[cell := bucket grid cell ++ [i]]> grid.

Fixpoint fill_grid (i : nat) (balls : list Ball) (grid : gmap (Z * Z) (list nat))
  : gmap (Z * Z) (list nat) :=
  match balls with
  | [] => grid
  | b :: balls' => fill_grid (S i) balls' (grid_append grid (get_cell (position b)) i)
  end.

Definition update_grid (balls : list Ball) : gmap (Z * Z) (list nat) :=
  fill_grid 0 balls ∅.

Definition offsets : list Z := [-1; 0; 1]%Z.

Definition get_nearby (grid : gmap (Z * Z) (list nat)) (b : Ball) : list nat :=
  let '(cx, cy) := get_cell (position b) in
  flat_map (fun dx =>
    flat_map (fun dy => bucket grid (cx + dx, cy + dy)%Z) offsets) offsets.

(** *** The collision solver *)

(** The body of the inner loop of [solve_collisions] for the pair of the
    balls at indices [i] and [j].  The indices come from the list and from
    the grid filled from it, so both name a ball ([get_nearby_range]); the
    last branch is there for totality. *)
Definition collide (i j : nat) (balls : list Ball) : result (list Ball) :=
  match balls !! i, balls !! j with
  | Some b1, Some b2 =>
      if Nat.eqb i j then Ok balls
      else
        let delta := vsub (position b1) (position b2) in
        let dist_sq := length_squared delta in
        let min_d := radius b1 + radius b2 in
        if (of_int 0 <? dist_sq) && (dist_sq <? min_d * min_d) then
          let dist := sqrt dist_sq in
          normal <- vdiv delta dist ;;
          let overlap := (min_d - dist) * (of_int 5 / of_int 10) in
          let total_mass := mass b1 + mass b2 in
          ratio1 <- fdiv (mass b2) total_mass ;;
          ratio2 <- fdiv (mass b1) total_mass ;;
          let sep := vscale normal overlap in
          let p1 := vadd (position b1) (vscale (vscale sep ratio1) COLLISION_DAMPING) in
          let p2 := vsub (position b2) (vscale (vscale sep ratio2) COLLISION_DAMPING) in
          Ok (<[j := set_position b2 p2]> (<[i := set_position b1 p1]> balls))
        else Ok balls
  | _, _ => Ok balls
  end.

(** The inner loop for the ball at index [i]: the generator [get_nearby]
    reads the cell of [b1] when the loop starts. *)
Definition collide_nearby (grid : gmap (Z * Z) (list nat)) (i : nat) (balls : list Ball)
  : result (list Ball) :=
  match balls !! i with
  | Some b1 => for_each (collide i) (get_nearby grid b1) balls
  | None => Ok balls
  end.

Definition solve_collisions (balls : list Ball) : result (list Ball) :=
  let grid := update_grid balls in
  for_each (collide_nearby grid) (seq 0 (length balls)) balls.

(** [solve_collisions] with a record of the pairs [(b1, b2)] that its two
    loops go through, in order. *)
Definition collide_nearby_log (grid : gmap (Z * Z) (list nat)) (i : nat)
    (st : list Ball * list (nat * nat)) : result (list Ball * list (nat * nat)) :=
  match st.1 !! i with
  | Some b1 =>
      let near := get_nearby grid b1 in
      balls' <- for_each (collide i) near st.1 ;;
      Ok (balls', st.2 ++ map (pair i) near)
  | None => Ok st
  end.

Definition solve_collisions_log (balls : list Ball)
  : result (list Ball * list (nat * nat)) :=
  let grid := update_grid balls in
  for_each (collide_nearby_log grid) (seq 0 (length balls)) (balls, []).

(** *** Simulation.update *)

Definition substep (sub_dt : T) (balls : list Ball) : result (list Ball) :=
  let balls := (fun b => accelerate b GRAVITY) <$> balls in
  balls <- solve_collisions balls ;;
  let balls := apply_constraints <$> balls in
  Ok ((fun b => update b sub_dt) <$> balls).

Fixpoint substeps (n : nat) (sub_dt : T) (balls : list Ball) : result (list Ball) :=
  match n with
  | O => Ok balls
  | S n' => balls' <- substep sub_dt balls ;; substeps n' sub_dt balls'
  end.

Definition Simulation_update (dt : T) (balls : list Ball) : result (list Ball) :=
  let sub_dt := dt / of_int (Z.of_nat SUBSTEPS) in
  substeps SUBSTEPS sub_dt balls.

(** *** Simulation.add_ball *)

Definition add_ball (balls : list Ball) (ball : Ball) : list Ball :=
  let balls := if (MAX_OBJECTS <=? length balls)%nat then tail balls else balls in
  balls ++ [ball].

End Physics.

Arguments Vector2 T : clear implicits.
Arguments Ball T : clear implicits.

(** ** Ball.update on objects

    A [Vector2] is a mutable object.  Above, a ball holds the values of its
    three vectors; that is faithful as long as no two fields share a vector
    object.  [Ball.update] is where this is at stake: it assigns
    [self.position.copy()] to [old_position] and then moves [self.position]
    in place.  Here the vector fields are references into a store of vector
    objects, and [update] is followed statement by statement. *)

Section Objects.
Context {T : Type} {arith : Arith T}.

Record BallObject : Type := mkBallObject {
  position_at : positive;
  old_position_at : positive;
  acceleration_at : positive;
  scalars : T * T * Z * (Z * Z * Z)   (* radius, mass, step_added, color *)
}.

(** The ball that an object stands for in a store. *)
Definition ball_in (st : gmap positive (Vector2 T)) (o : BallObject) : option (Ball T) :=
  match st !! position_at o, st !! old_position_at o, st !! acceleration_at o with
  | Some p, Some q, Some a =>
      Some (mkBall p q a (scalars o).1.1.1 (scalars o).1.1.2 (scalars o).1.2 (scalars o).2)
  | _, _, _ => None
  end.

Definition update_object (o : BallObject) (dt : T) (st : gmap positive (Vector2 T))
  : option (BallObject * gmap positive (Vector2 T)) :=
  match st !! position_at o, st !! old_position_at o with
  | Some p, Some q =>
      (* velocity = self.position - self.old_position *)
      let velocity := vsub p q in
      (* self.old_position = self.position.copy() *)
      let copy := fresh (dom st) in
      let st := <[copy := p]> st in
      let o := mkBallObject (position_at o) copy (acceleration_at o) (scalars o) in
      (* self.position += velocity + self.acceleration * dt * dt *)
      match st !! position_at o, st !! acceleration_at o with
      | Some p, Some a =>
          let st := <[position_at o := vadd p (vadd velocity (vscale (vscale a dt) dt))]> st in
          (* self.acceleration.xy = (0, 0) *)
          let st := <[acceleration_at o := vec2 (of_int 0) (of_int 0)]> st in
          Some (o, st)
      | _, _ => None
      end
  | _, _ => None
  end.

End Objects.

(** ** Text: the operations of [str] that the trace goes through *)

Module Text.
Local Open Scope string_scope.

Definition newline : ascii := "010"%char.
Definition carriage_return : ascii := "013"%char.
Definition comma : ascii := ","%char.

(** [str.isspace] on a character below 256. *)
Definition is_space (c : ascii) : bool :=
  let n := nat_of_ascii c in
  ((9 <=? n) && (n <=? 13) || (28 <=? n) && (n <=? 32)
   || (n =? 133) || (n =? 160))%nat.

Fixpoint lstrip (s : list ascii) : list ascii :=
  match s with
  | c :: s' => if is_space c then lstrip s' else s
  | [] => []
  end.

(** [s.strip()] *)
Definition strip (s : string) : string :=
  string_of_list_ascii
    (rev (lstrip (rev (lstrip (list_ascii_of_string s))))).

(** [s.split(sep)] for a separator of one character: [cur] holds, in
    reverse, the characters of the field being read. *)
Fixpoint split_from (sep : ascii) (cur : list ascii) (s : list ascii) : list string :=
  match s with
  | [] => [string_of_list_ascii (rev cur)]
  | c :: s' =>
      if Ascii.eqb c sep
      then string_of_list_ascii (rev cur) :: split_from sep [] s'
      else split_from sep (c :: cur) s'
  end.

Definition split (sep : ascii) (s : string) : list string :=
  split_from sep [] (list_ascii_of_string s).

(** What [open(path, 'r')] gives to read for the text that a file holds:
    in this mode a line ends at "\n", at "\r\n" or at a lone "\r", and
    each of the three is read as "\n". *)
Fixpoint universal_newlines (s : list ascii) : list ascii :=
  match s with
  | [] => []
  | c :: s' =>
      if Ascii.eqb c carriage_return then
        match s' with
        | d :: s'' =>
            if Ascii.eqb d newline then newline :: universal_newlines s''
            else newline :: universal_newlines s'
        | [] => [newline]
        end
      else c :: universal_newlines s'
  end.

(** [f.readlines()]: every line keeps its newline. *)
Fixpoint readlines_from (cur : list ascii) (s : list ascii) : list string :=
  match s with
  | [] => match cur with [] => [] | _ => [string_of_list_ascii (rev cur)] end
  | c :: s' =>
      if Ascii.eqb c newline
      then string_of_list_ascii (rev (c :: cur)) :: readlines_from [] s'
      else readlines_from (c :: cur) s'
  end.

Definition readlines (s : string) : list string :=
  readlines_from [] (universal_newlines (list_ascii_of_string s)).

(** [sep.join(parts)] *)
Definition join (sep : string) (parts : list string) : string :=
  String.concat sep parts.

Definition nl : string := String newline EmptyString.
End Text.

(** ** The color source: a PIL image of WIDTH x HEIGHT pixels *)

Definition Image : Type := Z -> Z -> Z * Z * Z.

(** [Image.getpixel((x, y))]: a negative coordinate counts from the far edge,
    and a coordinate outside the image raises [IndexError]. *)
Definition getpixel (im : Image) (px py : Z) : result (Z * Z * Z) :=
  let px := if (px <? 0)%Z then (WIDTH + px)%Z else px in
  let py := if (py <? 0)%Z then (HEIGHT + py)%Z else py in
  if ((0 <=? px) && (px <? WIDTH) && (0 <=? py) && (py <? HEIGHT))%Z
  then Ok (im px py)
  else Raise IndexError.

(** ** What the program takes from its libraries besides arithmetic *)

Class Trig (T : Type) := {
  cos : T -> T;                              (* [math.cos] *)
  sin : T -> T                               (* [math.sin] *)
}.

Class Runtime (T : Type) := {
  repr : T -> string;                        (* a float in an f-string *)
  RNG : Type;                                (* the state of [random] *)
  random_seed : Z -> RNG;                    (* [random.seed(n)] *)
  random_random : RNG -> T * RNG;            (* [random.random()] *)
  random_randint : Z -> Z -> RNG -> Z * RNG  (* [random.randint(a, b)] *)
}.

Section Scheduler.
Context {T : Type} {arith : Arith T} {trig : Trig T} {runtime : Runtime T}.
Local Open Scope num_scope.

(** [random.uniform(a, b)] is [a + (b - a) * random()]. *)
Definition random_uniform (a b : T) (g : RNG) : T * RNG :=
  let '(u, g) := random_random g in
  (a + (b - a) * u, g).

Record Simulation : Type := mkSimulation {
  headless : bool;
  balls : list (Ball T);
  current_step : Z;
  input_image : option Image;
  rng : RNG;                 (* the generator of the [random] module *)
  spawns_csv : option string (* the file ball_spawns.csv, when it exists *)
}.

Definition set_balls (s : Simulation) (bs : list (Ball T)) : Simulation :=
  mkSimulation (headless s) bs (current_step s) (input_image s) (rng s) (spawns_csv s).
Definition set_current_step (s : Simulation) (n : Z) : Simulation :=
  mkSimulation (headless s) (balls s) n (input_image s) (rng s) (spawns_csv s).
Definition set_rng (s : Simulation) (g : RNG) : Simulation :=
  mkSimulation (headless s) (balls s) (current_step s) (input_image s) g (spawns_csv s).
Definition set_spawns_csv (s : Simulation) (f : option string) : Simulation :=
  mkSimulation (headless s) (balls s) (current_step s) (input_image s) (rng s) f.

(** [Simulation.__init__]: [loaded] is what opening the input image gives
    ([None] when it fails), [ambient] the state the generator is in before
    the constructor runs and [file] the trace file on disk. *)
Definition Simulation_init (headless : bool) (loaded : option Image)
    (ambient : RNG) (file : option string) : Simulation :=
  {| headless := headless;
     balls := [];
     current_step := 0;
     input_image := loaded;
     rng := random_seed 42;
     spawns_csv := file |}.

(** [Ball(pos, radius, step)]: without a colour, three draws. *)
Definition Ball_init (pos : Vector2 T) (r : T) (step : Z) (g : RNG) : Ball T * RNG :=
  let '(c0, g) := random_randint 80 255 g in
  let '(c1, g) := random_randint 80 255 g in
  let '(c2, g) := random_randint 80 255 g in
  (new_ball pos r step (c0, c1, c2), g).

(** The record of a spawn, as [calculate_positions] formats it. *)
Definition spawn_record (step : Z) (b : Ball T) : string :=
  (Text.join ","
     [pretty step;
      repr (x (position b)); repr (y (position b));
      repr (radius b);
      repr (x (old_position b)); repr (y (old_position b));
      pretty (color b).1.1; pretty (color b).1.2; pretty (color b).2]
   ++ Text.nl)%string.

Definition spawn_guard (s : Simulation) : bool :=
  (current_step s mod SPAWN_INTERVAL =? 0)%Z
  && (length (balls s) <? MAX_OBJECTS)%nat.

(** The ball that a spawn creates, and the generator after its draws. *)
Definition spawn_ball (step : Z) (g : RNG) : Ball T * RNG :=
  let pos := vec2 (of_int WIDTH / of_int 2) (of_int HEIGHT / of_int 2) in
  let '(r, g) := random_uniform (of_int MIN_RADIUS) (of_int MAX_RADIUS) g in
  let '(b, g) := Ball_init pos r step g in
  let '(angle, g) := random_uniform (of_int 0) (of_int 2 * pi) g in
  let v := vec2 (cos angle * of_int 40) (sin angle * of_int 40) in
  (set_old_position b (vsub (position b) (vscale v FIXED_DT)), g).

(** The spawn part of an iteration of the loop of [calculate_positions];
    [buf] is [csv_buffer]. *)
Definition spawn (s : Simulation) (buf : string) : Simulation * string :=
  if spawn_guard s then
    let '(b, g) := spawn_ball (current_step s) (rng s) in
    (set_rng (set_balls s (add_ball (balls s) b)) g,
     (buf ++ spawn_record (current_step s) b)%string)
  else (s, buf).

(** One iteration of the loop. *)
Definition step (s : Simulation) (buf : string) : result (Simulation * string) :=
  let '(s, buf) := spawn s buf in
  bs <- Simulation_update FIXED_DT (balls s) ;;
  let s := set_balls s bs in
  Ok (set_current_step s (current_step s + 1)%Z, buf).

(** [while self.current_step < TOTAL_STEPS: ...] *)
Fixpoint loop (fuel : nat) (s : Simulation) (buf : string)
  : result (Simulation * string) :=
  match fuel with
  | O => Ok (s, buf)
  | S fuel' =>
      if (current_step s <? TOTAL_STEPS)%Z
      then sb <- step s buf ;; loop fuel' sb.1 sb.2
      else Ok (s, buf)
  end.

(** [sorted(self.balls, key=lambda x: x.step_added)]: a stable sort. *)
Fixpoint insert_by_step (b : Ball T) (l : list (Ball T)) : list (Ball T) :=
  match l with
  | [] => [b]
  | c :: l' =>
      if (step_added c <=? step_added b)%Z then c :: insert_by_step b l'
      else b :: l
  end.

Definition sorted_by_step (l : list (Ball T)) : list (Ball T) :=
  fold_left (fun acc b => insert_by_step b acc) l [].

(** The body of the loop of [map_colors] for one line and its ball; the
    result is what is written to [out]. *)
Definition recolor (im : Image) (b : Ball T) (line : string) : result string :=
  let px := to_int (x (position b)) in
  let py := to_int (y (position b)) in
  rgb <- getpixel im px py ;;
  let parts := Text.split Text.comma (Text.strip line) in
  let parts := take 6 parts
               ++ [pretty rgb.1.1; pretty rgb.1.2; pretty rgb.2]
               ++ drop 9 parts in
  Ok (Text.join "," parts ++ Text.nl)%string.

(** The loop of [map_colors]: it ends with the lines or with the balls,
    whichever come first. *)
Fixpoint recolor_all (im : Image) (lines : list string) (sorted_balls : list (Ball T))
  : result string :=
  match lines, sorted_balls with
  | line :: lines', b :: balls' =>
      l <- recolor im b line ;;
      rest <- recolor_all im lines' balls' ;;
      Ok (l ++ rest)%string
  | _, _ => Ok EmptyString
  end.

(** [map_colors] up to the point where the file is written again. *)
Definition map_colors_text (s : Simulation) (im : Image) : result string :=
  match spawns_csv s with
  | None => Raise FileNotFoundError
  | Some text =>
      recolor_all im (Text.readlines text) (sorted_by_step (balls s))
  end.

(** How a method that writes the trace file ends: it returns, or it
    raises with the file as it is on disk at that moment. *)
Inductive outcome : Type :=
| Returned (s : Simulation)
| Raised (e : exn) (file : option string).

(** [map_colors] writes the file after its loop: an exception in the loop
    leaves the file as it was.  Without an image, the first iteration that
    reaches [self.input_image.getpixel] raises AttributeError; when there
    is no line or no ball the loop has no such iteration, and the file is
    written empty. *)
Definition map_colors (s : Simulation) : outcome :=
  match input_image s with
  | Some im =>
      match map_colors_text s im with
      | Ok text => Returned (set_spawns_csv s (Some text))
      | Raise e => Raised e (spawns_csv s)
      end
  | None =>
      match spawns_csv s with
      | None => Raised FileNotFoundError None
      | Some text =>
          match Text.readlines text, sorted_by_step (balls s) with
          | _ :: _, _ :: _ => Raised AttributeError (Some text)
          | _, _ => Returned (set_spawns_csv s (Some EmptyString))
          end
      end
  end.

(** The loop of [calculate_positions], from an empty [csv_buffer]: it
    ends after [TOTAL_STEPS - current_step] iterations. *)
Definition run_loop (s : Simulation) : result (Simulation * string) :=
  loop (Z.to_nat (TOTAL_STEPS - current_step s)) s EmptyString.

(** The text that [calculate_positions] writes to the file after the
    loop. *)
Definition spawn_trace (s : Simulation) : result string :=
  rmap snd (run_loop s).

Definition calculate_positions (s : Simulation) : outcome :=
  match run_loop s with
  | Raise e => Raised e (spawns_csv s)
  | Ok (s', buf) =>
      let s' := set_spawns_csv s' (Some buf) in
      match input_image s' with
      | Some _ => map_colors s'
      | None => Returned s'
      end
  end.

(** What a run leaves in the trace file when it returns. *)
Definition written (o : outcome) : result (option string) :=
  match o with
  | Returned s => Ok (spawns_csv s)
  | Raised e _ => Raise e
  end.

(** The same simulation in another environment: display, image and
    file. *)
Definition with_env (h : bool) (l : option Image) (f : option string)
    (s : Simulation) : Simulation :=
  mkSimulation h (balls s) (current_step s) l (rng s) f.

End Scheduler.

Arguments Simulation T {runtime}.

(** The records of a list of balls, one after the other: what
    [csv_buffer] holds when these balls were spawned in this order. *)
Definition trace_of {T : Type} {runtime : Runtime T} (spawned : list (Ball T)) : string :=
  foldr (fun b rest => (spawn_record (step_added b) b ++ rest)%string) EmptyString spawned.

(** ** The real-number semantics *)

Module RealSem.
Local Open Scope R_scope.

Definition Rltb (a b : R) : bool := if Rlt_dec a b then true else false.
Definition Reqb (a b : R) : bool := if Req_dec_T a b then true else false.

(** [int(x)] truncates towards zero. *)
Definition Rtrunc (a : R) : Z := if Rle_dec 0 a then Zfloor a else Zceil a.

#[export] Instance real_arith : Arith R := {|
  of_int := IZR;
  add := Rplus;
  sub := Rminus;
  mul := Rmult;
  div := Rdiv;
  neg := Ropp;
  ltb := Rltb;
  eqb := Reqb;
  floordiv := fun a b => IZR (Zfloor (a / b));
  to_int := Rtrunc;
  sqrt := R_sqrt.sqrt;
  pi := PI
|}.

#[export] Instance real_trig : Trig R := {|
  cos := Rtrigo_def.cos;
  sin := Rtrigo_def.sin
|}.
End RealSem.
Import RealSem.

(** ** The binary64 semantics

    Python floats and the components of a pygame [Vector2] are IEEE 754
    binary64 numbers; [+], [-], [*], [/], [<] and [==] on them are the
    operations of the format, rounding to nearest with ties to even. *)

Module FloatSem.

(** The binary64 number nearest to [m * 2^e], ties to even: how an int of
    the program, or a literal, becomes a float. *)
Definition nearest (m e : Z) : PrimFloat.float :=
  FloatOps.SF2Prim (SpecFloat.binary_normalize FloatOps.prec FloatOps.emax m e false).

(** A finite float as [(m, e)], which stands for [m * 2^e]. *)
Definition exact (f : PrimFloat.float) : option (Z * Z) :=
  match FloatOps.Prim2SF f with
  | SpecFloat.S754_zero _ => Some (0, 0)%Z
  | SpecFloat.S754_finite s m e => Some (if s then Z.neg m else Z.pos m, e)
  | _ => None
  end.

(** The rational number that a finite float is. *)
Definition value (f : PrimFloat.float) : option QArith_base.Q :=
  match exact f with
  | Some (m, e) =>
      Some (if (0 <=? e)%Z then QArith_base.inject_Z (m * 2 ^ e)
            else QArith_base.Qmake m (Z.to_pos (2 ^ (- e))))
  | None => None
  end.

(** [int(x)] on a finite float: the integer part.  (On an infinity and on
    nan [int] raises.) *)
Definition truncate (f : PrimFloat.float) : Z :=
  match exact f with
  | Some (m, e) => if (0 <=? e)%Z then (m * 2 ^ e)%Z else Z.quot m (2 ^ (- e))
  | None => 0%Z
  end.

(** C [floor] *)
Definition floor (f : PrimFloat.float) : PrimFloat.float :=
  match exact f with
  | Some (m, e) =>
      if (0 <=? e)%Z || (m =? 0)%Z then f else nearest (m / 2 ^ (- e)) 0
  | None => f
  end.

(** C [fmod]: the remainder of the division truncated towards zero; it is
    exact and has the sign of the dividend. *)
Definition fmod (a b : PrimFloat.float) : PrimFloat.float :=
  match FloatOps.Prim2SF a, FloatOps.Prim2SF b with
  | SpecFloat.S754_finite sa ma ea, SpecFloat.S754_finite _ mb eb =>
      let e := Z.min ea eb in
      let r := ((Z.pos ma * 2 ^ (ea - e)) mod (Z.pos mb * 2 ^ (eb - e)))%Z in
      if (r =? 0)%Z then (if sa then PrimFloat.neg_zero else PrimFloat.zero)
      else nearest (if sa then - r else r) e
  | SpecFloat.S754_zero _, SpecFloat.S754_finite _ _ _ => a
  | SpecFloat.S754_zero _, SpecFloat.S754_infinity _ => a
  | SpecFloat.S754_finite _ _ _, SpecFloat.S754_infinity _ => a
  | _, _ => PrimFloat.nan
  end.

(** [a // b] for a divisor that is not zero, as CPython computes it: from
    [fmod], with the quotient moved down by one when the remainder and the
    divisor differ in sign, and then snapped to the nearest integer. *)
Definition floor_divide (a b : PrimFloat.float) : PrimFloat.float :=
  let md := fmod a b in
  let dv := PrimFloat.div (PrimFloat.sub a md) b in
  let dv :=
    if PrimFloat.eqb md PrimFloat.zero then dv
    else if xorb (PrimFloat.ltb b PrimFloat.zero) (PrimFloat.ltb md PrimFloat.zero)
         then PrimFloat.sub dv PrimFloat.one
         else dv in
  if PrimFloat.eqb dv PrimFloat.zero
  then (if PrimFloat.get_sign (PrimFloat.div a b)
        then PrimFloat.neg_zero else PrimFloat.zero)
  else
    let fl := floor dv in
    if PrimFloat.ltb (nearest 1 (-1)) (PrimFloat.sub dv fl)
    then PrimFloat.add fl PrimFloat.one else fl.

Definition binary64 : Arith PrimFloat.float := {|
  of_int := fun n => nearest n 0;
  add := PrimFloat.add;
  sub := PrimFloat.sub;
  mul := PrimFloat.mul;
  div := PrimFloat.div;
  neg := PrimFloat.opp;
  ltb := PrimFloat.ltb;
  eqb := PrimFloat.eqb;
  floordiv := floor_divide;
  to_int := truncate;
  sqrt := PrimFloat.sqrt;
  pi := nearest 7074237752028440 (-51)       (* 0x1.921fb54442d18p+1 *)
|}.
End FloatSem.
Import FloatSem.

(** A character that is neither a comma nor white space, and a string of
    such characters: what Python writes for an int or a float. *)
Definition plain_char (c : ascii) : Prop := c <> Text.comma /\ Text.is_space c = false.
Definition plain (f : string) : Prop := Forall plain_char (list_ascii_of_string f).

(** The fields of a ball that no method assigns. *)
Definition immutable {T : Type} (b : Ball T) : T * T * Z * (Z * Z * Z) :=
  (radius b, mass b, step_added b, color b).

(** What [Ball.__init__] establishes and no method changes: the mass is
    derived from the radius. *)
Definition constructed {T : Type} {arith : Arith T} (b : Ball T) : Prop :=
  mass b = (pi * (radius b * radius b))%num.

(** The ball with another colour. *)
Definition with_color {T : Type} (b : Ball T) (c : Z * Z * Z) : Ball T :=
  mkBall (position b) (old_position b) (acceleration b) (radius b) (mass b)
    (step_added b) c.

(** The fields of a ball other than its position. *)
Definition besides_position {T : Type} (b : Ball T)
  : Vector2 T * Vector2 T * (T * T * Z * (Z * Z * Z)) :=
  (old_position b, acceleration b, immutable b).

(** What holds of the simulation and of [csv_buffer] before and after
    every iteration of the loop of [calculate_positions] on a new
    simulation: the step counter is the number [k] of iterations done, the
    balls are those created at the steps below [min k MAX_OBJECTS], in
    order, the buffer holds the records of these balls as they were
    spawned, and no ball carries an acceleration. *)
Definition census {T : Type} {arith : Arith T} {runtime : Runtime T}
    (s : Simulation T) (buf : string) : Prop :=
  exists (k : nat) (spawned : list (Ball T)),
    current_step s = Z.of_nat k /\
    step_added <$> balls s = Z.of_nat <$> seq 0 (Nat.min k MAX_OBJECTS) /\
    buf = trace_of spawned /\
    immutable <$> spawned = immutable <$> balls s /\
    Forall (fun b => acceleration b = vec2 (of_int 0) (of_int 0)) (balls s).

(** ** Sample data *)

Section Samples.
Local Open Scope R_scope.

(** A ball of radius 5 that has crossed the left wall, moving left. *)
Definition ball_at_wall : Ball R :=
  {| position := vec2 3 500;
     old_position := vec2 4 500;
     acceleration := vec2 0 0;
     radius := 5;
     mass := PI * (5 * 5);
     step_added := 0;
     color := (80, 80, 80)%Z |}.

Definition ball_of (px py r : R) (step : Z) : Ball R :=
  new_ball (vec2 px py) r step (80, 80, 80)%Z.

(** Two overlapping balls of radius 5 whose centres are 5 apart. *)
Definition overlapping_pair : list (Ball R) :=
  [ball_of 503 504 5 0; ball_of 500 500 5 1].

(** Three balls of radius 28 on a line: the second and the third overlap,
    the first overlaps both and is listed first. *)
Definition stale_triple : list (Ball R) :=
  [ball_of (117 / 2) 500 28 0; ball_of (113 / 2) 500 28 1; ball_of (449 / 4) 500 28 2].

(** A ball object and the store of its three vectors. *)
Definition sample_object : BallObject (T := R) :=
  mkBallObject 1 2 3 (5, PI * (5 * 5), 0%Z, (80, 80, 80)%Z).

Definition sample_store : gmap positive (Vector2 R) :=
  <[3%positive := vec2 0 480]> (<[2%positive := vec2 99 200]> (<[1%positive := vec2 100 200]> ∅)).

(** Two balls of radius 5 that do not touch. *)
Definition distant_pair : list (Ball R) :=
  [ball_of 100 100 5 0; ball_of 200 100 5 1].

(** Two balls of radius 5 with the same centre. *)
Definition coincident_pair : list (Ball R) :=
  [ball_of 500 500 5 0; ball_of 500 500 5 1].

(** A binary64 ball of radius [6 - 2^-44], at rest, whose centre is at
    [x = 994 + 2^-43]: its radius is within [MIN_RADIUS, MAX_RADIUS] and
    its circle reaches [2^-44] beyond the right wall.  ([apply_constraints]
    reads the two positions and the radius of a ball, not its mass.) *)
Definition grazing_ball : Ball PrimFloat.float :=
  new_ball (arith := binary64) (vec2 (nearest (994 * 2 ^ 43 + 1) (-43)) (nearest 500 0))
           (nearest (6 * 2 ^ 44 - 1) (-44)) 0 (80, 80, 80)%Z.

(** A generator for examples: every draw is the middle of its range. *)
Definition midpoint_runtime : Runtime R :=
  {| repr := fun _ => "r"%string;
     RNG := nat;
     random_seed := fun _ => O;
     random_random := fun g => (1 / 2, S g);
     random_randint := fun a b g => ((a + b) / 2, S g)%Z |}.

Definition new_simulation : Simulation R (runtime := midpoint_runtime) :=
  Simulation_init (runtime := midpoint_runtime) false None O None.

(** After a run: one ball, whose centre has left the world on the right,
    its record in the trace file, and a color source. *)
Definition stray_simulation : Simulation R (runtime := midpoint_runtime) :=
  mkSimulation (runtime := midpoint_runtime)
    true
    [ball_of 1200 500 5 0]
    1000
    (Some (fun _ _ => (10, 20, 30)%Z))
    O
    (Some ("0,500.0,500.0,5.0,499.5,500.0,80,80,80" ++ Text.nl)%string).

(** After a run: one ball at rest inside the world, its record in the
    trace file, and a color source. *)
Definition settled_simulation : Simulation R (runtime := midpoint_runtime) :=
  mkSimulation (runtime := midpoint_runtime)
    true
    [ball_of 640 480 5 0]
    1000
    (Some (fun _ _ => (10, 20, 30)%Z))
    O
    (Some (trace_of (runtime := midpoint_runtime) [ball_of 500 500 5 0])).
(** After a run: one ball, whose centre is five pixels to the left of the
    image, its record in the trace file, and a color source that gives
    the column of a pixel as its red component. *)
Definition wrapped_simulation : Simulation R (runtime := midpoint_runtime) :=
  mkSimulation (runtime := midpoint_runtime)
    true
    [ball_of (-5) 500 5 0]
    1000
    (Some (fun px _ => (px, 20, 30)%Z))
    O
    (Some ("0,500.0,500.0,5.0,499.5,500.0,80,80,80" ++ Text.nl)%string).
End Samples.

(** * Properties *)

(** Name the results of the draws from the generator, in order. *)
Ltac draw_all :=
  repeat match goal with
         | |- context [random_random ?g] => destruct (random_random g)
         | |- context [random_randint ?a ?b ?g] => destruct (random_randint a b g)
         end.

Ltac unfold_config :=
  unfold BOUNCE_LOSS, COLLISION_DAMPING, FIXED_DT, WIDTH, HEIGHT, MIN_RADIUS,
    MAX_RADIUS, CELL_SIZE in *.

(** ** Ball.update *)

Section UpdateFacts.
Context {T : Type} {arith : Arith T}.
Local Open Scope num_scope.

(** The ball after [update], field by field. *)
Lemma update_spec (b : Ball T) (dt : T) :
  let v := vsub (position b) (old_position b) in
  update b dt =
    {| position := vadd (position b) (vadd v (vscale (vscale (acceleration b) dt) dt));
       old_position := position b;
       acceleration := vec2 (of_int 0) (of_int 0);
       radius := radius b;
       mass := mass b;
       step_added := step_added b;
       color := color b |}.
Proof. reflexivity. Qed.

(** C2: [Ball.update], on a ball whose position and acceleration are two
    vector objects, takes [v = position - old_position]; makes
    [old_position] a new vector object, a copy holding the position before
    the step; moves the position object in place to
    [position + (v + acceleration * dt * dt)]; zeroes the acceleration object
    in place; and leaves radius, mass, creation step and colour, and every
    other vector object, as they were.  The ball afterwards is [update] of
    the ball before. *)
Theorem update_object_spec (o : BallObject) (dt : T)
    (st : gmap positive (Vector2 T)) (p q a : Vector2 T) :
  st !! position_at o = Some p ->
  st !! old_position_at o = Some q ->
  st !! acceleration_at o = Some a ->
  position_at o <> acceleration_at o ->
  exists (o' : BallObject) (st' : gmap positive (Vector2 T)),
    update_object o dt st = Some (o', st') /\
    position_at o' = position_at o /\
    st' !! position_at o' = Some (vadd p (vadd (vsub p q) (vscale (vscale a dt) dt))) /\
    st !! old_position_at o' = None /\
    old_position_at o' <> position_at o' /\
    st' !! old_position_at o' = Some p /\
    acceleration_at o' = acceleration_at o /\
    st' !! acceleration_at o' = Some (vec2 (of_int 0) (of_int 0)) /\
    scalars o' = scalars o /\
    (forall l : positive,
        l <> position_at o' -> l <> old_position_at o' -> l <> acceleration_at o' ->
        st' !! l = st !! l) /\
    ball_in st' o' = option_map (fun b => update b dt) (ball_in st o).
Proof.
  intros Hp Hq Ha Hpa.
  set (copy := fresh (dom st)).
  assert (Hfresh : st !! copy = None)
    by (apply not_elem_of_dom; apply is_fresh).
  assert (Hcp : copy <> position_at o) by congruence.
  assert (Hca : copy <> acceleration_at o) by congruence.
  unfold update_object. rewrite Hp, Hq. fold copy. cbn [position_at acceleration_at].
  rewrite !lookup_insert_ne by exact Hcp || exact Hca. rewrite Hp, Ha.
  eexists _, _. split; [reflexivity |]. cbn [position_at old_position_at acceleration_at scalars].
  assert (Hpos : forall v1 v2 v3,
             <[acceleration_at o := v1]> (<[position_at o := v2]> (<[copy := v3]> st))
               !! position_at o = Some v2).
  { intros. rewrite lookup_insert_ne by congruence. apply lookup_insert_eq. }
  assert (Hold : forall v1 v2 v3,
             <[acceleration_at o := v1]> (<[position_at o := v2]> (<[copy := v3]> st))
               !! copy = Some v3).
  { intros. rewrite !lookup_insert_ne by congruence. apply lookup_insert_eq. }
  split; [reflexivity |]. split; [apply Hpos |]. split; [exact Hfresh |].
  split; [exact Hcp |]. split; [apply Hold |]. split; [reflexivity |].
  split; [apply lookup_insert_eq |]. split; [reflexivity |]. split.
  - intros l H1 H2 H3. rewrite !lookup_insert_ne by congruence. reflexivity.
  - unfold ball_in. cbn [position_at old_position_at acceleration_at scalars].
    rewrite Hpos, Hold, lookup_insert_eq, Hp, Hq, Ha. reflexivity.
Qed.

End UpdateFacts.

Lemma update_object_spec_witness :
  ball_in sample_store sample_object <> None /\
  exists o' st', update_object sample_object 1%R sample_store = Some (o', st')
                 /\ st' !! old_position_at o' = Some (vec2 100%R 200%R).
Proof.
  split; [discriminate |].
  destruct (update_object_spec sample_object 1%R sample_store
              (vec2 100%R 200%R) (vec2 99%R 200%R) (vec2 0%R 480%R)
              eq_refl eq_refl eq_refl ltac:(discriminate))
    as (o' & st' & Hrun & _ & _ & _ & _ & Hold & _).
  exists o', st'. split; [exact Hrun | exact Hold].
Defined.


(** ** Ball.apply_constraints, over the reals *)

Section ConstraintFacts.
Local Open Scope R_scope.

Lemma Rltb_spec (a b : R) : reflect (a < b) (Rltb a b).
Proof. unfold Rltb. destruct (Rlt_dec a b); constructor; assumption. Qed.

Lemma Rltb_true (a b : R) : Rltb a b = true <-> a < b.
Proof. destruct (Rltb_spec a b); split; intros; try lra; congruence. Qed.

Lemma Rltb_false (a b : R) : Rltb a b = false <-> b <= a.
Proof. destruct (Rltb_spec a b); split; intros; try lra; congruence. Qed.


(** Over the reals, the circle of a ball whose radius respects the bound
    MAX_RADIUS of the data model lies within the world after the pass. *)
Lemma apply_constraints_contained (b : Ball R) :
  radius b <= IZR MAX_RADIUS ->
  let b' := apply_constraints b in
  radius b <= x (position b') <= IZR WIDTH - radius b /\
  radius b <= y (position b') <= IZR HEIGHT - radius b.
Proof.
  intros Hr b'. subst b'. unfold apply_constraints. cbn.
  destruct (Rltb_spec (x (position b) - radius b) 0) as [Hx0 | Hx0];
    [| destruct (Rltb_spec (IZR WIDTH) (x (position b) + radius b)) as [Hx1 | Hx1]];
    (destruct (Rltb_spec (y (position b) - radius b) 0) as [Hy0 | Hy0];
      [| destruct (Rltb_spec (IZR HEIGHT) (y (position b) + radius b)) as [Hy1 | Hy1]]);
    cbn; unfold_config; lra.
Qed.

(** Over the reals, what the pass does on each axis, by the position of the
    circle, and the velocity that the two positions carry afterwards. *)
Lemma apply_constraints_reflects (b : Ball R) :
  let v := vsub (position b) (old_position b) in
  let b' := apply_constraints b in
  exists v' : Vector2 R,
    ((x (position b) - radius b < 0 ->
        x (position b') = radius b /\ x v' = - x v * BOUNCE_LOSS) /\
     (0 <= x (position b) - radius b -> IZR WIDTH < x (position b) + radius b ->
        x (position b') = IZR WIDTH - radius b /\ x v' = - x v * BOUNCE_LOSS) /\
     (0 <= x (position b) - radius b -> x (position b) + radius b <= IZR WIDTH ->
        x (position b') = x (position b) /\ x v' = x v)) /\
    ((y (position b) - radius b < 0 ->
        y (position b') = radius b /\ y v' = - y v * BOUNCE_LOSS) /\
     (0 <= y (position b) - radius b -> IZR HEIGHT < y (position b) + radius b ->
        y (position b') = IZR HEIGHT - radius b /\ y v' = - y v * BOUNCE_LOSS) /\
     (0 <= y (position b) - radius b -> y (position b) + radius b <= IZR HEIGHT ->
        y (position b') = y (position b) /\ y v' = y v)) /\
    old_position b' = vsub (position b') (vscale v' COLLISION_DAMPING) /\
    x (position b') - x (old_position b') = x v' * COLLISION_DAMPING /\
    y (position b') - y (old_position b') = y v' * COLLISION_DAMPING.
Proof.
  intros v b'. subst v b'. unfold apply_constraints. cbn.
  destruct (Rltb_spec (x (position b) - radius b) 0) as [Hx0 | Hx0];
    [| destruct (Rltb_spec (IZR WIDTH) (x (position b) + radius b)) as [Hx1 | Hx1]];
    (destruct (Rltb_spec (y (position b) - radius b) 0) as [Hy0 | Hy0];
      [| destruct (Rltb_spec (IZR HEIGHT) (y (position b) + radius b)) as [Hy1 | Hy1]]);
    cbn; unfold_config;
    match goal with
    | |- context [vsub _ (vscale (vec2 ?a ?c) _)] => exists (vec2 a c)
    end; cbn; repeat split; intros; try reflexivity; lra.
Qed.
End ConstraintFacts.

(** In every arithmetic, what the pass does on each axis, by the outcome
    of the two tests of the source as that arithmetic evaluates them. *)
Lemma apply_constraints_tests {T : Type} {arith : Arith T} (b : Ball T) :
  let v := vsub (position b) (old_position b) in
  let b' := apply_constraints b in
  exists v' : Vector2 T,
    ((((x (position b) - radius b <? of_int 0) = true ->
        x (position b') = radius b /\ x v' = - x v * BOUNCE_LOSS) /\
     ((x (position b) - radius b <? of_int 0) = false ->
      (of_int WIDTH <? x (position b) + radius b) = true ->
        x (position b') = of_int WIDTH - radius b /\ x v' = - x v * BOUNCE_LOSS) /\
     ((x (position b) - radius b <? of_int 0) = false ->
      (of_int WIDTH <? x (position b) + radius b) = false ->
        x (position b') = x (position b) /\ x v' = x v)) /\
    (((y (position b) - radius b <? of_int 0) = true ->
        y (position b') = radius b /\ y v' = - y v * BOUNCE_LOSS) /\
     ((y (position b) - radius b <? of_int 0) = false ->
      (of_int HEIGHT <? y (position b) + radius b) = true ->
        y (position b') = of_int HEIGHT - radius b /\ y v' = - y v * BOUNCE_LOSS) /\
     ((y (position b) - radius b <? of_int 0) = false ->
      (of_int HEIGHT <? y (position b) + radius b) = false ->
        y (position b') = y (position b) /\ y v' = y v)) /\
    old_position b' = vsub (position b') (vscale v' COLLISION_DAMPING) /\
    acceleration b' = acceleration b /\
    (radius b', mass b', step_added b', color b')
    = (radius b, mass b, step_added b, color b))%num.
Proof.
  intros v b'. subst v b'. unfold apply_constraints.
  destruct (x (position b) - radius b <? of_int 0)%num;
    [| destruct (of_int WIDTH <? x (position b) + radius b)%num];
    (destruct (y (position b) - radius b <? of_int 0)%num;
      [| destruct (of_int HEIGHT <? y (position b) + radius b)%num]);
    cbn;
    match goal with
    | |- context [vsub _ (vscale (vec2 ?a ?c) _)] => exists (vec2 a c)
    end; cbn; repeat split; intros; try reflexivity; discriminate.
Qed.

(** C3: what [apply_constraints] does, (b) and (c), holds in every
    arithmetic, binary64 included: on each axis, by its two tests as the
    arithmetic evaluates them, it clamps the position component and
    replaces the velocity component [v] by [-v * BOUNCE_LOSS], or keeps
    both; the previous position becomes the position minus that velocity
    [v'] times COLLISION_DAMPING; nothing else changes.  Over the reals
    the tests are exact: there (b) reads by the position of the circle, the
    two positions carry the velocity [v' * COLLISION_DAMPING], and (a) the
    circle of a ball whose radius respects the bound MAX_RADIUS of the data
    model lies within the world. *)
Theorem apply_constraints_spec :
  (forall (T : Type) (arith : Arith T) (b : Ball T),
      let v := vsub (position b) (old_position b) in
      let b' := apply_constraints b in
      exists v' : Vector2 T,
        ((((x (position b) - radius b <? of_int 0) = true ->
            x (position b') = radius b /\ x v' = - x v * BOUNCE_LOSS) /\
         ((x (position b) - radius b <? of_int 0) = false ->
          (of_int WIDTH <? x (position b) + radius b) = true ->
            x (position b') = of_int WIDTH - radius b /\ x v' = - x v * BOUNCE_LOSS) /\
         ((x (position b) - radius b <? of_int 0) = false ->
          (of_int WIDTH <? x (position b) + radius b) = false ->
            x (position b') = x (position b) /\ x v' = x v)) /\
        (((y (position b) - radius b <? of_int 0) = true ->
            y (position b') = radius b /\ y v' = - y v * BOUNCE_LOSS) /\
         ((y (position b) - radius b <? of_int 0) = false ->
          (of_int HEIGHT <? y (position b) + radius b) = true ->
            y (position b') = of_int HEIGHT - radius b /\ y v' = - y v * BOUNCE_LOSS) /\
         ((y (position b) - radius b <? of_int 0) = false ->
          (of_int HEIGHT <? y (position b) + radius b) = false ->
            y (position b') = y (position b) /\ y v' = y v)) /\
        old_position b' = vsub (position b') (vscale v' COLLISION_DAMPING) /\
        acceleration b' = acceleration b /\
        (radius b', mass b', step_added b', color b')
        = (radius b, mass b, step_added b, color b))%num) /\
  (forall b : Ball R,
      let v := vsub (position b) (old_position b) in
      let b' := apply_constraints b in
      (radius b <= IZR MAX_RADIUS ->
       radius b <= x (position b') <= IZR WIDTH - radius b /\
       radius b <= y (position b') <= IZR HEIGHT - radius b) /\
      exists v' : Vector2 R,
        ((x (position b) - radius b < 0 ->
            x (position b') = radius b /\ x v' = - x v * BOUNCE_LOSS) /\
         (0 <= x (position b) - radius b -> IZR WIDTH < x (position b) + radius b ->
            x (position b') = IZR WIDTH - radius b /\ x v' = - x v * BOUNCE_LOSS) /\
         (0 <= x (position b) - radius b -> x (position b) + radius b <= IZR WIDTH ->
            x (position b') = x (position b) /\ x v' = x v)) /\
        ((y (position b) - radius b < 0 ->
            y (position b') = radius b /\ y v' = - y v * BOUNCE_LOSS) /\
         (0 <= y (position b) - radius b -> IZR HEIGHT < y (position b) + radius b ->
            y (position b') = IZR HEIGHT - radius b /\ y v' = - y v * BOUNCE_LOSS) /\
         (0 <= y (position b) - radius b -> y (position b) + radius b <= IZR HEIGHT ->
            y (position b') = y (position b) /\ y v' = y v)) /\
        old_position b' = vsub (position b') (vscale v' COLLISION_DAMPING) /\
        x (position b') - x (old_position b') = x v' * COLLISION_DAMPING /\
        y (position b') - y (old_position b') = y v' * COLLISION_DAMPING)%R.
Proof.
  split.
  - intros T arith b. exact (apply_constraints_tests b).
  - intros b v b'. split.
    + exact (apply_constraints_contained b).
    + exact (apply_constraints_reflects b).
Qed.

Lemma apply_constraints_spec_witness :
  (radius (T := R) ball_at_wall <= IZR MAX_RADIUS /\
   x (position (apply_constraints ball_at_wall)) = 5 /\
   x (old_position (apply_constraints ball_at_wall)) = 5 - 1 * (9 / 10) * (95 / 100))%R.
Proof.
  assert (Hr : (radius (T := R) ball_at_wall <= IZR MAX_RADIUS)%R)
    by (cbn; unfold MAX_RADIUS; lra).
  split; [exact Hr |].
  destruct (proj2 apply_constraints_spec ball_at_wall)
    as (_ & v' & (Hx & _) & _ & _ & Hd & _).
  destruct Hx as [Hp Hv]; [cbn; lra |].
  split; [exact Hp |].
  rewrite Hp, Hv in Hd. cbn in Hd. unfold_config. cbn in Hd. lra.
Defined.

(** In binary64 the sum [x + radius] is rounded before it is compared with
    WIDTH.  For the ball of radius [6 - 2^-44] at [x = 994 + 2^-43] the sum
    rounds to 1000: neither test fires, the pass leaves the position as it
    is, and the circle reaches beyond the wall, by [2^-44]. *)
Lemma rounded_sum_leaves_circle_outside :
  let b' := apply_constraints (arith := binary64) grazing_ball in
  @ltb _ binary64 (@of_int _ binary64 MIN_RADIUS) (radius grazing_ball) = true /\
  @ltb _ binary64 (radius grazing_ball) (@of_int _ binary64 MAX_RADIUS) = true /\
  position b' = position grazing_ball /\
  radius b' = radius grazing_ball /\
  @ltb _ binary64 (@sub _ binary64 (@of_int _ binary64 WIDTH) (radius b'))
                  (x (position b')) = true /\
  match value (x (position b')), value (radius b') with
  | Some px, Some r => QArith_base.Qlt (QArith_base.inject_Z WIDTH) (QArith_base.Qplus px r)
  | _, _ => False
  end.
Proof. vm_compute. repeat split; reflexivity. Qed.


(** ** The collision solver, over the reals *)

Section CollideFacts.
Local Open Scope R_scope.

Lemma Reqb_true (a b : R) : Reqb a b = true <-> a = b.
Proof. unfold Reqb. destruct (Req_dec_T a b); split; intros; congruence. Qed.

Lemma Reqb_false (a b : R) : Reqb a b = false <-> a <> b.
Proof. unfold Reqb. destruct (Req_dec_T a b); split; intros; congruence. Qed.

Lemma vdiv_nonzero (a : Vector2 R) (k : R) :
  k <> 0 -> vdiv a k = Ok (vscale a (1 / k)).
Proof.
  intros Hk. unfold vdiv. cbn. apply Reqb_false in Hk. rewrite Hk. reflexivity.
Qed.

Lemma fdiv_nonzero (a k : R) : k <> 0 -> fdiv a k = Ok (a / k).
Proof.
  intros Hk. unfold fdiv. cbn. apply Reqb_false in Hk. rewrite Hk. reflexivity.
Qed.

Lemma length_squared_nonneg (a : Vector2 R) : 0 <= length_squared a.
Proof. unfold length_squared. cbn. nra. Qed.

(** Under the guard of the solver the distance is positive and below the
    sum of the radii, and the masses do not sum to zero. *)
Lemma guard_facts (b1 b2 : Ball R) :
  constructed b1 -> constructed b2 ->
  let dist_sq := length_squared (vsub (position b1) (position b2)) in
  0 < dist_sq < (radius b1 + radius b2) * (radius b1 + radius b2) ->
  0 < R_sqrt.sqrt dist_sq /\
  (0 < radius b1 + radius b2 -> R_sqrt.sqrt dist_sq < radius b1 + radius b2) /\
  0 < mass b1 + mass b2.
Proof.
  intros C1 C2 dist_sq [Hpos Hlt].
  assert (Hs : 0 < R_sqrt.sqrt dist_sq) by (apply sqrt_lt_R0; exact Hpos).
  assert (Hss : R_sqrt.sqrt dist_sq * R_sqrt.sqrt dist_sq = dist_sq)
    by (apply sqrt_sqrt; lra).
  split; [exact Hs |]. split; [intros; nra |].
  unfold constructed in C1, C2. cbn in C1, C2. rewrite C1, C2.
  pose proof PI_RGT_0 as Hpi.
  assert (0 < radius b1 * radius b1 + radius b2 * radius b2) by nra.
  nra.
Qed.

(** The magnitude of a vector scaled by a factor that is not negative. *)
Lemma norm_vscale (a : Vector2 R) (k : R) :
  0 <= k ->
  R_sqrt.sqrt (length_squared (vscale a k)) = R_sqrt.sqrt (length_squared a) * k.
Proof.
  intros Hk. unfold length_squared, vscale. cbn.
  replace (x a * k * (x a * k) + y a * k * (y a * k))
    with ((x a * x a + y a * y a) * (k * k)) by ring.
  rewrite sqrt_mult_alt by nra. rewrite (sqrt_square k Hk). reflexivity.
Qed.


(** What [collide] returns for a pair under its guard. *)
Lemma collide_overlapping (balls : list (Ball R)) (i j : nat) (b1 b2 : Ball R) :
  balls !! i = Some b1 -> balls !! j = Some b2 -> i <> j ->
  constructed b1 -> constructed b2 ->
  let delta := vsub (position b1) (position b2) in
  let dist := R_sqrt.sqrt (length_squared delta) in
  0 < length_squared delta < (radius b1 + radius b2) * (radius b1 + radius b2) ->
  let n := vscale delta (1 / dist) in
  let overlap := (radius b1 + radius b2 - dist) / 2 in
  let c1 := vscale (vscale (vscale n overlap) (mass b2 / (mass b1 + mass b2)))
              COLLISION_DAMPING in
  let c2 := vscale (vscale (vscale n overlap) (mass b1 / (mass b1 + mass b2)))
              COLLISION_DAMPING in
  collide i j balls
    = Ok (<[j := set_position b2 (vsub (position b2) c2)]>
            (<[i := set_position b1 (vadd (position b1) c1)]> balls)).
Proof.
  intros Hi Hj Hij C1 C2 delta dist Hg n overlap c1 c2.
  destruct (guard_facts b1 b2 C1 C2 Hg) as (Hd & _ & Hm).
  fold delta in Hd. fold dist in Hd.
  unfold collide. rewrite Hi, Hj.
  apply Nat.eqb_neq in Hij. rewrite Hij.
  fold delta. cbn [ltb real_arith of_int add mul].
  destruct Hg as [Hg0 Hg1].
  apply Rltb_true in Hg0, Hg1. rewrite Hg0, Hg1. cbn [andb].
  cbn [sqrt real_arith]. fold dist.
  rewrite vdiv_nonzero by lra. cbn [bind].
  rewrite !fdiv_nonzero by (cbn; lra). cbn [bind].
  do 3 f_equal.
  - f_equal. unfold c2, n, overlap, vscale. cbn. f_equal; lra.
  - do 2 f_equal. unfold c1, n, overlap, vscale. cbn. f_equal; lra.
Qed.



(** C9: a pair of distinct particles with coincident centres (squared
    distance 0) is skipped: the solver returns without an exception, and
    the list of balls, hence every position, is as before.  The square
    root and the divisions are behind the guard [0 < dist_sq]. *)
Theorem collide_coincident (balls : list (Ball R)) (i j : nat) (b1 b2 : Ball R) :
  balls !! i = Some b1 -> balls !! j = Some b2 -> i <> j ->
  length_squared (vsub (position b1) (position b2)) = 0 ->
  collide i j balls = Ok balls.
Proof.
  intros Hi Hj Hij Hz. unfold collide. rewrite Hi, Hj.
  apply Nat.eqb_neq in Hij. rewrite Hij. rewrite Hz.
  cbn [ltb real_arith of_int].
  replace (Rltb 0 0) with false; [reflexivity |].
  symmetry. apply Rltb_false. lra.
Qed.

Lemma collide_coincident_witness : collide 0 1 coincident_pair = Ok coincident_pair.
Proof.
  apply (collide_coincident coincident_pair 0 1
           (ball_of 500 500 5 0) (ball_of 500 500 5 1)); try reflexivity.
  - discriminate.
  - unfold length_squared; cbn; lra.
Defined.
End CollideFacts.

(** ** The uniform grid *)

Section GridFacts.
Context {T : Type} {arith : Arith T}.

Lemma bucket_grid_append (g : gmap (Z * Z) (list nat)) (c c' : Z * Z) (i : nat) :
  bucket (grid_append g c i) c'
  = if decide (c = c') then bucket g c ++ [i] else bucket g c'.
Proof.
  unfold grid_append, bucket at 1. destruct (decide (c = c')) as [<- | Hne].
  - rewrite lookup_insert_eq. reflexivity.
  - rewrite lookup_insert_ne by exact Hne. reflexivity.
Qed.

(** Filling the grid only appends to buckets. *)
Lemma fill_grid_keeps (bs : list (Ball T)) :
  forall (i : nat) (g : gmap (Z * Z) (list nat)) (c : Z * Z) (k : nat),
    k ∈ bucket g c -> k ∈ bucket (fill_grid i bs g) c.
Proof.
  induction bs as [| b bs IH]; intros i g c k Hk; cbn [fill_grid]; [exact Hk |].
  apply IH. rewrite bucket_grid_append.
  destruct (decide (get_cell (position b) = c)) as [-> | _]; [| exact Hk].
  apply elem_of_app. left. exact Hk.
Qed.

(** Every ball is put in the bucket of its cell, under its index. *)
Lemma fill_grid_places (bs : list (Ball T)) :
  forall (i : nat) (g : gmap (Z * Z) (list nat)) (k : nat) (b : Ball T),
    bs !! k = Some b ->
    (i + k)%nat ∈ bucket (fill_grid i bs g) (get_cell (position b)).
Proof.
  induction bs as [| b0 bs IH]; intros i g k b Hk; [discriminate |].
  destruct k as [| k]; cbn [fill_grid]; cbn in Hk.
  - injection Hk as ->. apply fill_grid_keeps.
    rewrite bucket_grid_append, decide_True by reflexivity.
    apply elem_of_app. right. rewrite Nat.add_0_r. apply list_elem_of_singleton.
    reflexivity.
  - replace (i + S k)%nat with (S i + k)%nat by lia. apply IH. exact Hk.
Qed.

(** A bucket of a filled grid holds what it held before and indices of
    the balls that were added. *)
Lemma fill_grid_range (bs : list (Ball T)) :
  forall (i : nat) (g : gmap (Z * Z) (list nat)) (c : Z * Z) (k : nat),
    k ∈ bucket (fill_grid i bs g) c ->
    k ∈ bucket g c \/ (i <= k < i + length bs)%nat.
Proof.
  induction bs as [| b bs IH]; intros i g c k Hk; cbn [fill_grid length] in *;
    [left; exact Hk |].
  apply IH in Hk as [Hk | Hk]; [| right; lia].
  rewrite bucket_grid_append in Hk.
  destruct (decide (get_cell (position b) = c)) as [-> | _]; [| left; exact Hk].
  apply elem_of_app in Hk as [Hk | Hk]; [left; exact Hk | right].
  apply list_elem_of_singleton in Hk. lia.
Qed.

Lemma update_grid_places (balls : list (Ball T)) (k : nat) (b : Ball T) :
  balls !! k = Some b ->
  k ∈ bucket (update_grid balls) (get_cell (position b)).
Proof. intros Hk. apply (fill_grid_places balls 0 ∅ k b Hk). Qed.

Lemma update_grid_range (balls : list (Ball T)) (c : Z * Z) (k : nat) :
  k ∈ bucket (update_grid balls) c -> (k < length balls)%nat.
Proof.
  intros Hk. apply fill_grid_range in Hk as [Hk | Hk]; [| lia].
  unfold bucket in Hk. rewrite lookup_empty in Hk. cbn in Hk.
  apply elem_of_nil in Hk. contradiction.
Qed.

Lemma get_nearby_elem (g : gmap (Z * Z) (list nat)) (b : Ball T) (k : nat) :
  k ∈ get_nearby g b <->
  exists dx dy : Z,
    dx ∈ offsets /\ dy ∈ offsets /\
    k ∈ bucket g ((get_cell (position b)).1 + dx, (get_cell (position b)).2 + dy)%Z.
Proof.
  unfold get_nearby. destruct (get_cell (position b)) as [cx cy]. cbn [fst snd].
  rewrite list_elem_of_In, in_flat_map. split.
  - intros (dx & Hdx & Hk). apply in_flat_map in Hk as (dy & Hdy & Hk).
    exists dx, dy. rewrite !list_elem_of_In. auto.
  - intros (dx & dy & Hdx & Hdy & Hk). rewrite !list_elem_of_In in *.
    exists dx. split; [exact Hdx |]. apply in_flat_map. exists dy. auto.
Qed.

(** The candidates that [get_nearby] yields on a rebuilt grid are balls of
    the list. *)
Lemma get_nearby_range (balls : list (Ball T)) (b : Ball T) (k : nat) :
  k ∈ get_nearby (update_grid balls) b -> (k < length balls)%nat.
Proof.
  intros Hk. apply get_nearby_elem in Hk as (dx & dy & _ & _ & Hk).
  eapply update_grid_range. exact Hk.
Qed.
End GridFacts.

(** ** Broad phase, over the reals *)

Section BroadPhaseFacts.
Local Open Scope R_scope.

Lemma Rtrunc_IZR (k : Z) : Rtrunc (IZR k) = k.
Proof.
  unfold Rtrunc. destruct (Rle_dec 0 (IZR k)); [apply ZfloorZ |].
  unfold Zceil. rewrite ZfloorNZ. lia.
Qed.

(** The cell of a position is the floor of each component over the cell
    size. *)
Lemma get_cell_floor (p : Vector2 R) :
  get_cell p = (Zfloor (x p / IZR CELL_SIZE), Zfloor (y p / IZR CELL_SIZE)).
Proof. unfold get_cell. cbn. rewrite !Rtrunc_IZR. reflexivity. Qed.

Lemma floor_adjacent (a b : R) :
  Rabs (a - b) < IZR CELL_SIZE ->
  (-1 <= Zfloor (a / IZR CELL_SIZE) - Zfloor (b / IZR CELL_SIZE) <= 1)%Z.
Proof.
  change (IZR CELL_SIZE) with 56. intros Hd.
  apply Rabs_def2 in Hd as [Hd1 Hd2].
  pose proof (Zfloor_bound (a / 56)) as Ha.
  pose proof (Zfloor_bound (b / 56)) as Hb.
  set (fa := Zfloor (a / 56)) in *. set (fb := Zfloor (b / 56)) in *.
  assert (H1 : IZR (fa - fb) < IZR 2) by (rewrite minus_IZR; lra).
  assert (H2 : IZR (-2) < IZR (fa - fb)) by (rewrite minus_IZR; lra).
  apply lt_IZR in H1, H2. lia.
Qed.

(** The centres of two overlapping circles of radius at most MAX_RADIUS
    are less than a cell apart on each axis. *)
Lemma overlap_close (a b : Ball R) :
  radius a <= IZR MAX_RADIUS -> radius b <= IZR MAX_RADIUS ->
  R_sqrt.sqrt (length_squared (vsub (position a) (position b))) < radius a + radius b ->
  Rabs (x (position a) - x (position b)) < IZR CELL_SIZE /\
  Rabs (y (position a) - y (position b)) < IZR CELL_SIZE.
Proof.
  change (IZR CELL_SIZE) with 56. change (IZR MAX_RADIUS) with 28. intros Ha Hb Hd.
  pose proof (sqrt_pos (length_squared (vsub (position a) (position b)))) as Hs.
  pose proof (sqrt_sqrt _ (length_squared_nonneg (vsub (position a) (position b)))) as Hss.
  revert Hd Hs Hss.
  generalize (R_sqrt.sqrt (length_squared (vsub (position a) (position b)))).
  unfold length_squared, vsub. cbn. intros d Hd Hs Hss.
  assert (Hd56 : d * d < 56 * 56) by nra.
  pose proof (Rle_0_sqr (x (position a) - x (position b))) as Hx2.
  pose proof (Rle_0_sqr (y (position a) - y (position b))) as Hy2.
  unfold Rsqr in Hx2, Hy2.
  split; apply Rabs_def1; nra.
Qed.

(** C5: two balls of the list whose circles overlap, with radii at most
    MAX_RADIUS, have cells (the floors of the position components over
    CELL_SIZE = 2 * MAX_RADIUS) that differ by at most 1 on each axis, and
    on the grid rebuilt from the list [get_nearby] yields each among the
    neighbours of the other. *)
Theorem broad_phase_complete (balls : list (Ball R)) (i j : nat) (a b : Ball R) :
  balls !! i = Some a -> balls !! j = Some b ->
  radius a <= IZR MAX_RADIUS -> radius b <= IZR MAX_RADIUS ->
  R_sqrt.sqrt (length_squared (vsub (position a) (position b))) < radius a + radius b ->
  let ca := get_cell (position a) in
  let cb := get_cell (position b) in
  CELL_SIZE = (2 * MAX_RADIUS)%Z /\
  ca = (Zfloor (x (position a) / IZR CELL_SIZE), Zfloor (y (position a) / IZR CELL_SIZE)) /\
  cb = (Zfloor (x (position b) / IZR CELL_SIZE), Zfloor (y (position b) / IZR CELL_SIZE)) /\
  (Z.abs (ca.1 - cb.1) <= 1 /\ Z.abs (ca.2 - cb.2) <= 1)%Z /\
  j ∈ get_nearby (update_grid balls) a /\
  i ∈ get_nearby (update_grid balls) b.
Proof.
  intros Hi Hj Ha Hb Hd ca cb.
  destruct (overlap_close a b Ha Hb Hd) as [Hx Hy].
  apply floor_adjacent in Hx, Hy.
  pose proof (get_cell_floor (position a)) as Eca. fold ca in Eca.
  pose proof (get_cell_floor (position b)) as Ecb. fold cb in Ecb.
  split; [reflexivity |]. split; [exact Eca |]. split; [exact Ecb |].
  assert (Hadj : (-1 <= ca.1 - cb.1 <= 1 /\ -1 <= ca.2 - cb.2 <= 1)%Z)
    by (rewrite Eca, Ecb; cbn [fst snd]; lia).
  split; [lia |].
  assert (Hoff : forall d : Z, (-1 <= d <= 1)%Z -> d ∈ offsets).
  { intros d Hd'. unfold offsets.
    assert (d = -1 \/ d = 0 \/ d = 1)%Z as [-> | [-> | ->]] by lia;
      repeat constructor. }
  split; apply get_nearby_elem.
  - exists (cb.1 - ca.1)%Z, (cb.2 - ca.2)%Z. fold ca.
    split; [apply Hoff; lia |]. split; [apply Hoff; lia |].
    replace (ca.1 + (cb.1 - ca.1), ca.2 + (cb.2 - ca.2))%Z with cb
      by (destruct cb; cbn; f_equal; lia).
    apply update_grid_places. exact Hj.
  - exists (ca.1 - cb.1)%Z, (ca.2 - cb.2)%Z. fold cb.
    split; [apply Hoff; lia |]. split; [apply Hoff; lia |].
    replace (cb.1 + (ca.1 - cb.1), cb.2 + (ca.2 - cb.2))%Z with ca
      by (destruct ca; cbn; f_equal; lia).
    apply update_grid_places. exact Hi.
Qed.

Lemma broad_phase_complete_witness :
  R_sqrt.sqrt (length_squared (vsub (vec2 503 504) (vec2 (T := R) 500 500))) < 5 + 5 /\
  1%nat ∈ get_nearby (update_grid overlapping_pair) (ball_of 503 504 5 0).
Proof.
  assert (Hd : R_sqrt.sqrt (length_squared (vsub (vec2 503 504) (vec2 (T := R) 500 500)))
               < 5 + 5).
  { unfold length_squared. cbn.
    replace ((503 - 500) * (503 - 500) + (504 - 500) * (504 - 500)) with (5 * 5) by lra.
    rewrite sqrt_square; lra. }
  split; [exact Hd |].
  refine (proj1 (proj2 (proj2 (proj2 (proj2
    (broad_phase_complete overlapping_pair 0 1
       (ball_of 503 504 5 0) (ball_of 500 500 5 1) eq_refl eq_refl _ _ Hd)))))).
  - cbn. unfold MAX_RADIUS. lra.
  - cbn. unfold MAX_RADIUS. lra.
Defined.
End BroadPhaseFacts.

(** ** What the physics leaves alone *)

Section FrameFacts.
Context {T : Type} {arith : Arith T}.

Lemma for_each_inv {A S} (P : S -> Prop) (body : A -> S -> result S) (l : list A) :
  (forall a s s', body a s = Ok s' -> P s -> P s') ->
  forall s s', for_each body l s = Ok s' -> P s -> P s'.
Proof.
  intros Hbody. induction l as [| a l IH]; intros s s' Hrun Hs; cbn in Hrun.
  - injection Hrun as <-. exact Hs.
  - destruct (body a s) as [s1 |] eqn:E; [| discriminate]. cbn in Hrun.
    eapply IH; [exact Hrun |]. eapply Hbody; eauto.
Qed.

Lemma immutable_set_position (b : Ball T) (p : Vector2 T) :
  immutable (set_position b p) = immutable b.
Proof. reflexivity. Qed.

Lemma immutable_accelerate (b : Ball T) (f : Vector2 T) :
  immutable (accelerate b f) = immutable b.
Proof. unfold accelerate. destruct (ltb _ _); reflexivity. Qed.

Lemma immutable_apply_constraints (b : Ball T) :
  immutable (apply_constraints b) = immutable b.
Proof.
  unfold apply_constraints.
  repeat match goal with |- context [if ?c then _ else _] => destruct c end;
    reflexivity.
Qed.

Lemma immutable_update (b : Ball T) (dt : T) : immutable (update b dt) = immutable b.
Proof. reflexivity. Qed.

Lemma fmap_insert_same {A B} (f : A -> B) (l : list A) (i : nat) (a a' : A) :
  l !! i = Some a -> f a' = f a -> f <$> <[i := a']> l = f <$> l.
Proof.
  intros Hi Hf. rewrite list_fmap_insert, Hf.
  apply list_insert_id. rewrite list_lookup_fmap, Hi. reflexivity.
Qed.

(** [collide] changes positions only, and only those of the two balls. *)
Lemma collide_immutable (i j : nat) (balls balls' : list (Ball T)) :
  collide i j balls = Ok balls' -> immutable <$> balls' = immutable <$> balls.
Proof.
  unfold collide.
  destruct (balls !! i) as [b1 |] eqn:Hi; [| intros [= <-]; reflexivity].
  destruct (balls !! j) as [b2 |] eqn:Hj; [| intros [= <-]; reflexivity].
  destruct (Nat.eqb i j) eqn:Hij; [intros [= <-]; reflexivity |].
  destruct (_ && _); [| intros [= <-]; reflexivity].
  destruct (vdiv _ _) as [normal |]; [| discriminate]. cbn [bind].
  destruct (fdiv (mass b2) _) as [ratio1 |]; [| discriminate]. cbn [bind].
  destruct (fdiv (mass b1) _) as [ratio2 |]; [| discriminate]. cbn [bind].
  intros [= <-]. apply Nat.eqb_neq in Hij.
  rewrite (fmap_insert_same immutable _ j b2).
  - apply (fmap_insert_same immutable _ i b1); [exact Hi | reflexivity].
  - rewrite list_lookup_insert_ne by exact Hij. exact Hj.
  - reflexivity.
Qed.

Lemma collide_frame (i j k : nat) (balls balls' : list (Ball T)) :
  collide i j balls = Ok balls' -> k <> i -> k <> j -> balls' !! k = balls !! k.
Proof.
  unfold collide. intros Hc Hki Hkj.
  destruct (balls !! i) as [b1 |] eqn:Hi; [| injection Hc as <-; reflexivity].
  destruct (balls !! j) as [b2 |] eqn:Hj; [| injection Hc as <-; reflexivity].
  destruct (Nat.eqb i j) eqn:Hij; [injection Hc as <-; reflexivity |].
  destruct (_ && _); [| injection Hc as <-; reflexivity].
  destruct (vdiv _ _) as [normal |]; [| discriminate]. cbn [bind] in Hc.
  destruct (fdiv (mass b2) _) as [ratio1 |]; [| discriminate]. cbn [bind] in Hc.
  destruct (fdiv (mass b1) _) as [ratio2 |]; [| discriminate]. cbn [bind] in Hc.
  injection Hc as <-.
  rewrite !list_lookup_insert_ne by congruence. reflexivity.
Qed.

Lemma collide_nearby_immutable (grid : gmap (Z * Z) (list nat)) (i : nat)
    (balls balls' : list (Ball T)) :
  collide_nearby grid i balls = Ok balls' ->
  immutable <$> balls' = immutable <$> balls.
Proof.
  unfold collide_nearby. destruct (balls !! i) as [b1 |]; [| intros [= <-]; reflexivity].
  intros Hrun.
  eapply (for_each_inv (fun bs => immutable <$> bs = immutable <$> balls)) in Hrun;
    [exact Hrun | | reflexivity].
  intros a s s' Hc Hs. cbv beta. rewrite <- Hs. exact (collide_immutable i a s s' Hc).
Qed.

Lemma solve_collisions_immutable (balls balls' : list (Ball T)) :
  solve_collisions balls = Ok balls' -> immutable <$> balls' = immutable <$> balls.
Proof.
  unfold solve_collisions. intros Hrun.
  eapply (for_each_inv (fun bs => immutable <$> bs = immutable <$> balls)) in Hrun;
    [exact Hrun | | reflexivity].
  intros a s s' Hc Hs. cbv beta. rewrite <- Hs.
  exact (collide_nearby_immutable _ a s s' Hc).
Qed.

Lemma fmap_immutable_pointwise (f : Ball T -> Ball T) (balls : list (Ball T)) :
  (forall b, immutable (f b) = immutable b) ->
  immutable <$> (f <$> balls) = immutable <$> balls.
Proof.
  intros Hf. rewrite <- list_fmap_compose. apply list_fmap_ext.
  intros i b _. apply Hf.
Qed.

Lemma substep_immutable (sub_dt : T) (balls balls' : list (Ball T)) :
  substep sub_dt balls = Ok balls' -> immutable <$> balls' = immutable <$> balls.
Proof.
  unfold substep. destruct (solve_collisions _) as [bs |] eqn:E; [| discriminate].
  cbn [bind]. intros [= <-]. apply solve_collisions_immutable in E.
  rewrite !fmap_immutable_pointwise in *;
    auto using immutable_update, immutable_apply_constraints, immutable_accelerate.
Qed.

Lemma substeps_immutable (n : nat) (sub_dt : T) :
  forall balls balls' : list (Ball T),
    substeps n sub_dt balls = Ok balls' -> immutable <$> balls' = immutable <$> balls.
Proof.
  induction n as [| n IH]; intros balls balls' Hrun; cbn in Hrun.
  - injection Hrun as <-. reflexivity.
  - destruct (substep sub_dt balls) as [bs |] eqn:E; [| discriminate].
    cbn [bind] in Hrun. rewrite (IH _ _ Hrun). exact (substep_immutable _ _ _ E).
Qed.

(** [Simulation.update] neither adds nor removes a ball, and keeps the
    radius, mass, creation step and colour of each. *)
Lemma Simulation_update_immutable (dt : T) (balls balls' : list (Ball T)) :
  Simulation_update dt balls = Ok balls' -> immutable <$> balls' = immutable <$> balls.
Proof. apply substeps_immutable. Qed.

Lemma Simulation_update_length (dt : T) (balls balls' : list (Ball T)) :
  Simulation_update dt balls = Ok balls' -> length balls' = length balls.
Proof.
  intros Hrun. apply Simulation_update_immutable in Hrun.
  apply (f_equal length) in Hrun. rewrite !length_fmap in Hrun. exact Hrun.
Qed.
End FrameFacts.

(** ** The scheduler: capacity, eviction, reproducibility *)

Section SchedulerFacts.
Context {T : Type} {arith : Arith T} {trig : Trig T} {runtime : Runtime T}.

Lemma add_ball_full (bs : list (Ball T)) (b : Ball T) :
  (MAX_OBJECTS <= length bs)%nat -> add_ball bs b = tail bs ++ [b].
Proof.
  intros Hfull. unfold add_ball.
  apply Nat.leb_le in Hfull. rewrite Hfull. reflexivity.
Qed.

Lemma add_ball_room (bs : list (Ball T)) (b : Ball T) :
  (length bs < MAX_OBJECTS)%nat -> add_ball bs b = bs ++ [b].
Proof.
  intros Hroom. unfold add_ball.
  apply Nat.leb_gt in Hroom. rewrite Hroom. reflexivity.
Qed.

Lemma add_ball_bounded (bs : list (Ball T)) (b : Ball T) :
  (length bs <= MAX_OBJECTS)%nat -> (length (add_ball bs b) <= MAX_OBJECTS)%nat.
Proof.
  intros Hle. destruct (Nat.le_gt_cases MAX_OBJECTS (length bs)) as [Hfull | Hroom].
  - rewrite add_ball_full by exact Hfull.
    rewrite length_app. cbn [length].
    destruct bs as [| b0 bs]; cbn [tail length] in *; [unfold MAX_OBJECTS; lia | lia].
  - rewrite add_ball_room by exact Hroom. rewrite length_app. cbn [length]. lia.
Qed.

Lemma spawn_guard_true (s : Simulation T) :
  spawn_guard s = true <->
  (current_step s mod SPAWN_INTERVAL = 0)%Z /\ (length (balls s) < MAX_OBJECTS)%nat.
Proof.
  unfold spawn_guard. rewrite andb_true_iff, Z.eqb_eq, Nat.ltb_lt. reflexivity.
Qed.

(** Under the guard a spawn appends its ball; otherwise nothing happens. *)
Lemma spawn_appends (s : Simulation T) (buf : string) :
  spawn_guard s = true ->
  spawn s buf
  = (set_rng (set_balls s (balls s ++ [(spawn_ball (current_step s) (rng s)).1]))
       (spawn_ball (current_step s) (rng s)).2,
     (buf ++ spawn_record (current_step s) (spawn_ball (current_step s) (rng s)).1)%string).
Proof.
  intros Hg. unfold spawn. rewrite Hg.
  destruct (spawn_ball _ _) as [b g]. cbn [fst snd].
  rewrite add_ball_room by (apply spawn_guard_true in Hg; tauto). reflexivity.
Qed.

Lemma spawn_skips (s : Simulation T) (buf : string) :
  spawn_guard s = false -> spawn s buf = (s, buf).
Proof. intros Hg. unfold spawn. rewrite Hg. reflexivity. Qed.

Lemma spawn_bounded (s : Simulation T) (buf : string) :
  (length (balls s) <= MAX_OBJECTS)%nat ->
  (length (balls (spawn s buf).1) <= MAX_OBJECTS)%nat.
Proof.
  intros Hle. unfold spawn. destruct (spawn_guard s); [| exact Hle].
  destruct (spawn_ball _ _) as [b g]. cbn. apply add_ball_bounded. exact Hle.
Qed.

Lemma spawn_extends (s : Simulation T) (buf : string) :
  immutable <$> balls s `prefix_of` immutable <$> balls (spawn s buf).1.
Proof.
  destruct (spawn_guard s) eqn:Hg.
  - rewrite spawn_appends by exact Hg. cbn. rewrite fmap_app. apply prefix_app_r.
    reflexivity.
  - rewrite spawn_skips by exact Hg. reflexivity.
Qed.

Lemma step_balls (s s' : Simulation T) (buf buf' : string) :
  step s buf = Ok (s', buf') ->
  immutable <$> balls s' = immutable <$> balls (spawn s buf).1.
Proof.
  unfold step. destruct (spawn s buf) as [s1 buf1]. cbn [fst].
  destruct (Simulation_update _ _) as [bs |] eqn:E; [| discriminate].
  cbn [bind]. intros [= <- _]. cbn. exact (Simulation_update_immutable _ _ _ E).
Qed.

Lemma step_bounded (s s' : Simulation T) (buf buf' : string) :
  (length (balls s) <= MAX_OBJECTS)%nat ->
  step s buf = Ok (s', buf') ->
  (length (balls s') <= MAX_OBJECTS)%nat.
Proof.
  intros Hle Hstep. apply step_balls in Hstep.
  apply (f_equal length) in Hstep. rewrite !length_fmap in Hstep.
  rewrite Hstep. apply spawn_bounded. exact Hle.
Qed.

Lemma loop_bounded (fuel : nat) :
  forall (s s' : Simulation T) (buf buf' : string),
    (length (balls s) <= MAX_OBJECTS)%nat ->
    loop fuel s buf = Ok (s', buf') ->
    (length (balls s') <= MAX_OBJECTS)%nat.
Proof.
  induction fuel as [| fuel IH]; intros s s' buf buf' Hle Hrun; cbn in Hrun.
  - injection Hrun as <- _. exact Hle.
  - destruct (current_step s <? TOTAL_STEPS)%Z; [| injection Hrun as <- _; exact Hle].
    destruct (step s buf) as [[s1 buf1] |] eqn:E; [| discriminate].
    cbn [bind fst snd] in Hrun.
    eapply IH; [| exact Hrun]. eapply step_bounded; eauto.
Qed.

Lemma loop_extends (fuel : nat) :
  forall (s s' : Simulation T) (buf buf' : string),
    loop fuel s buf = Ok (s', buf') ->
    immutable <$> balls s `prefix_of` immutable <$> balls s'.
Proof.
  induction fuel as [| fuel IH]; intros s s' buf buf' Hrun; cbn in Hrun.
  - injection Hrun as <- _. reflexivity.
  - destruct (current_step s <? TOTAL_STEPS)%Z; [| injection Hrun as <- _; reflexivity].
    destruct (step s buf) as [[s1 buf1] |] eqn:E; [| discriminate].
    cbn [bind fst snd] in Hrun.
    etransitivity; [| eapply IH; exact Hrun].
    rewrite (step_balls _ _ _ _ E). apply spawn_extends.
Qed.

Lemma step_input_image (s s' : Simulation T) (buf buf' : string) :
  step s buf = Ok (s', buf') -> input_image s' = input_image s.
Proof.
  unfold step, spawn.
  destruct (spawn_guard s); [destruct (spawn_ball _ _) |];
    destruct (Simulation_update _ _); try discriminate;
    intros [= <- _]; reflexivity.
Qed.

Lemma loop_input_image (fuel : nat) :
  forall (s s' : Simulation T) (buf buf' : string),
    loop fuel s buf = Ok (s', buf') -> input_image s' = input_image s.
Proof.
  induction fuel as [| fuel IH]; intros s s' buf buf' Hrun; cbn [loop] in Hrun.
  - injection Hrun as <- _. reflexivity.
  - destruct (current_step s <? TOTAL_STEPS)%Z; [| injection Hrun as <- _; reflexivity].
    destruct (step s buf) as [[s1 buf1] |] eqn:E; [| discriminate].
    cbn [bind fst snd] in Hrun.
    rewrite (IH _ _ _ _ Hrun). exact (step_input_image _ _ _ _ E).
Qed.

(** C7: when the live count has reached MAX_OBJECTS, [add_ball] drops the
    head of the list, the earliest-added ball still live, and then appends
    the new one; [add_ball] keeps the count within MAX_OBJECTS,
    [Simulation.update] keeps the count, so a step keeps the count within
    MAX_OBJECTS, and after every step of the run from a new simulation
    the count is at most MAX_OBJECTS. *)
Theorem capacity_never_exceeded :
  (forall (bs : list (Ball T)) (b : Ball T),
      (MAX_OBJECTS <= length bs)%nat -> add_ball bs b = tail bs ++ [b]) /\
  (forall (bs : list (Ball T)) (b : Ball T),
      (length bs <= MAX_OBJECTS)%nat -> (length (add_ball bs b) <= MAX_OBJECTS)%nat) /\
  (forall (dt : T) (bs bs' : list (Ball T)),
      Simulation_update dt bs = Ok bs' -> length bs' = length bs) /\
  (forall (s s' : Simulation T) (buf buf' : string),
      (length (balls s) <= MAX_OBJECTS)%nat ->
      step s buf = Ok (s', buf') -> (length (balls s') <= MAX_OBJECTS)%nat) /\
  (forall (h : bool) (l : option Image) (a : RNG) (f : option string)
          (fuel : nat) (s' : Simulation T) (buf' : string),
      loop fuel (Simulation_init h l a f) EmptyString = Ok (s', buf') ->
      (length (balls s') <= MAX_OBJECTS)%nat).
Proof.
  split; [exact add_ball_full |]. split; [exact add_ball_bounded |].
  split; [exact Simulation_update_length |]. split; [exact step_bounded |].
  intros h l a f fuel s' buf' Hrun.
  eapply loop_bounded; [| exact Hrun]. cbn. lia.
Qed.

(** C10: in the loop of [calculate_positions], [add_ball] is reached only
    under the spawn guard, where the live count is below MAX_OBJECTS, so
    that it appends without dropping a ball; without the guard the balls
    are left as they are.  Hence along the run the balls present stay, in
    their order, and the live count does not decrease. *)
Theorem core_run_never_evicts (s : Simulation T) (buf : string) :
  (spawn_guard s = true ->
     (length (balls s) < MAX_OBJECTS)%nat /\
     (forall b : Ball T, add_ball (balls s) b = balls s ++ [b]) /\
     exists (b : Ball T) (g : RNG),
       spawn s buf = (set_rng (set_balls s (balls s ++ [b])) g,
                      (buf ++ spawn_record (current_step s) b)%string)) /\
  (spawn_guard s = false -> spawn s buf = (s, buf)) /\
  (forall (fuel : nat) (s' : Simulation T) (buf' : string),
      loop fuel s buf = Ok (s', buf') ->
      immutable <$> balls s `prefix_of` immutable <$> balls s' /\
      (length (balls s) <= length (balls s'))%nat).
Proof.
  split; [| split].
  - intros Hg. pose proof (proj1 (spawn_guard_true s) Hg) as [_ Hroom].
    split; [exact Hroom |]. split; [intros b; apply add_ball_room; exact Hroom |].
    eexists _, _. apply spawn_appends. exact Hg.
  - apply spawn_skips.
  - intros fuel s' buf' Hrun. apply loop_extends in Hrun.
    split; [exact Hrun |].
    apply prefix_length in Hrun. rewrite !length_fmap in Hrun. exact Hrun.
Qed.
End SchedulerFacts.

(** ** Over the reals the run raises no exception *)

Section Totality.
Local Open Scope R_scope.

Lemma for_each_total {A S} (P : S -> Prop) (body : A -> S -> result S) (l : list A) :
  (forall a s, P s -> exists s', body a s = Ok s' /\ P s') ->
  forall s, P s -> exists s', for_each body l s = Ok s' /\ P s'.
Proof.
  intros Hbody. induction l as [| a l IH]; intros s Hs; cbn.
  - exists s. auto.
  - destruct (Hbody a s Hs) as (s1 & -> & Hs1). cbn [bind]. apply IH. exact Hs1.
Qed.

Lemma constructed_immutable (b b' : Ball R) :
  immutable b' = immutable b -> constructed b -> constructed b'.
Proof. unfold immutable, constructed. intros [= -> -> _ _]. auto. Qed.

Lemma Forall_constructed_immutable (bs bs' : list (Ball R)) :
  immutable <$> bs' = immutable <$> bs ->
  Forall constructed bs -> Forall constructed bs'.
Proof.
  revert bs'. induction bs as [| b bs IH]; intros [| b' bs'] Heq Hall;
    cbn in Heq; try discriminate; [constructor |].
  injection Heq as Hr Hm _ _ Hbs. inversion Hall; subst.
  constructor; [unfold constructed in *; congruence | apply IH; assumption].
Qed.

(** The guard of [collide] keeps the two divisors away from zero. *)
Lemma collide_total (i j : nat) (bs : list (Ball R)) :
  Forall constructed bs -> exists bs', collide i j bs = Ok bs'.
Proof.
  intros Hall. unfold collide.
  destruct (bs !! i) as [b1 |] eqn:Hi; [| eauto].
  destruct (bs !! j) as [b2 |] eqn:Hj; [| eauto].
  destruct (Nat.eqb i j); [eauto |].
  cbn [ltb real_arith of_int add mul sqrt].
  destruct (Rltb_spec 0 (length_squared (vsub (position b1) (position b2)))) as [H0 |];
    [| eauto].
  destruct (Rltb_spec (length_squared (vsub (position b1) (position b2)))
              ((radius b1 + radius b2) * (radius b1 + radius b2))) as [H1 |];
    [| eauto].
  cbn [andb].
  assert (C1 : constructed b1)
    by (eapply (proj1 (Forall_lookup _ _) Hall); exact Hi).
  assert (C2 : constructed b2)
    by (eapply (proj1 (Forall_lookup _ _) Hall); exact Hj).
  destruct (guard_facts b1 b2 C1 C2 (conj H0 H1)) as (Hd & _ & Hm).
  rewrite vdiv_nonzero by lra. cbn [bind].
  rewrite !fdiv_nonzero by (cbn; lra). cbn [bind]. eauto.
Qed.

Lemma solve_collisions_total (bs : list (Ball R)) :
  Forall constructed bs ->
  exists bs', solve_collisions bs = Ok bs' /\ Forall constructed bs'.
Proof.
  intros Hall. unfold solve_collisions.
  apply (for_each_total (Forall constructed)); [| exact Hall].
  intros i s Hs. unfold collide_nearby.
  destruct (s !! i) as [b1 |]; [| eauto].
  apply (for_each_total (Forall constructed)); [| exact Hs].
  intros j s1 Hs1. destruct (collide_total i j s1 Hs1) as [s2 Hc].
  exists s2. split; [exact Hc |].
  eapply Forall_constructed_immutable; [| exact Hs1].
  eapply collide_immutable. exact Hc.
Qed.

Lemma Forall_constructed_fmap (f : Ball R -> Ball R) (bs : list (Ball R)) :
  (forall b, immutable (f b) = immutable b) ->
  Forall constructed bs -> Forall constructed (f <$> bs).
Proof.
  intros Hf. apply Forall_constructed_immutable.
  apply fmap_immutable_pointwise. exact Hf.
Qed.

Lemma substeps_total (n : nat) (sub_dt : R) :
  forall bs : list (Ball R),
    Forall constructed bs ->
    exists bs', substeps n sub_dt bs = Ok bs' /\ Forall constructed bs'.
Proof.
  induction n as [| n IH]; intros bs Hall; cbn [substeps]; [eauto |].
  unfold substep.
  destruct (solve_collisions_total ((fun b => accelerate b GRAVITY) <$> bs))
    as (bs1 & -> & H1).
  { apply Forall_constructed_fmap; [| exact Hall].
    intros b. apply immutable_accelerate. }
  cbn [bind]. apply IH.
  apply Forall_constructed_fmap; [intros b; apply immutable_update |].
  apply Forall_constructed_fmap; [apply immutable_apply_constraints | exact H1].
Qed.

Context {runtime : Runtime R}.

Lemma spawn_ball_constructed (n : Z) (g : RNG) : constructed (spawn_ball n g).1.
Proof.
  unfold spawn_ball, random_uniform, Ball_init. draw_all. reflexivity.
Qed.

Lemma step_total (s : Simulation R) (buf : string) :
  Forall constructed (balls s) ->
  exists s' buf', step s buf = Ok (s', buf')
                  /\ Forall constructed (balls s')
                  /\ current_step s' = (current_step s + 1)%Z.
Proof.
  intros Hall. unfold step.
  assert (Hsp : Forall constructed (balls (spawn s buf).1)
                /\ current_step (spawn s buf).1 = current_step s).
  { unfold spawn. destruct (spawn_guard s); [| auto].
    pose proof (spawn_ball_constructed (current_step s) (rng s)) as Hb.
    destruct (spawn_ball _ _) as [b g]. cbn in *. split; [| reflexivity].
    unfold add_ball. apply Forall_app. split; [| repeat constructor; exact Hb].
    match goal with |- context [if ?c then _ else _] => destruct c end;
      [| exact Hall].
    destruct (balls s); [constructor | inversion Hall; assumption]. }
  destruct (spawn s buf) as [s1 buf1]. cbn [fst] in Hsp. destruct Hsp as [Hs1 Hn].
  destruct (substeps_total SUBSTEPS (FIXED_DT / IZR (Z.of_nat SUBSTEPS)) _ Hs1)
    as (bs & Hbs & Hc).
  unfold Simulation_update. cbn [div of_int real_arith]. rewrite Hbs. cbn [bind].
  eexists _, _. split; [reflexivity |]. cbn. split; [exact Hc | lia].
Qed.

Lemma loop_total (fuel : nat) :
  forall (s : Simulation R) (buf : string),
    Forall constructed (balls s) ->
    (0 <= current_step s)%Z ->
    fuel = Z.to_nat (TOTAL_STEPS - current_step s) ->
    exists s' buf', loop fuel s buf = Ok (s', buf')
                    /\ current_step s' = Z.max TOTAL_STEPS (current_step s).
Proof.
  induction fuel as [| fuel IH]; intros s buf Hall Hpos Hfuel; cbn [loop].
  - exists s, buf. split; [reflexivity | lia].
  - destruct (Z.ltb_spec (current_step s) TOTAL_STEPS) as [Hlt | Hge];
      [| exists s, buf; split; [reflexivity | lia]].
    destruct (step_total s buf Hall) as (s1 & buf1 & -> & H1 & Hn).
    cbn [bind fst snd].
    destruct (IH s1 buf1 H1 ltac:(lia) ltac:(lia)) as (s' & buf' & -> & Hs').
    exists s', buf'. split; [reflexivity | lia].
Qed.

(** The loop of [calculate_positions] from a new simulation ends, after
    TOTAL_STEPS iterations, without an exception. *)
Lemma core_run_completes (h : bool) (l : option Image) (a : RNG) (f : option string) :
  exists s' buf',
    run_loop (Simulation_init h l a f) = Ok (s', buf')
    /\ current_step s' = TOTAL_STEPS.
Proof.
  destruct (loop_total (Z.to_nat (TOTAL_STEPS - 0)) (Simulation_init h l a f)
              EmptyString) as (s' & buf' & Hrun & Hn);
    [constructor | cbn; lia | reflexivity |].
  exists s', buf'. split; [exact Hrun | exact Hn].
Qed.
End Totality.

(** ** Reproducibility *)

Section Determinism.
Context {T : Type} {arith : Arith T} {trig : Trig T} {runtime : Runtime T}.

(** The loop reads the balls, the step counter and the generator, and
    nothing else of the simulation. *)
Lemma spawn_with_env (h : bool) (l : option Image) (f : option string)
    (s : Simulation T) (buf : string) :
  spawn (with_env h l f s) buf = (with_env h l f (spawn s buf).1, (spawn s buf).2).
Proof.
  unfold spawn. change (spawn_guard (with_env h l f s)) with (spawn_guard s).
  destruct (spawn_guard s); [| reflexivity].
  cbn [with_env rng current_step balls].
  destruct (spawn_ball _ _) as [b g]. reflexivity.
Qed.

Lemma step_with_env (h : bool) (l : option Image) (f : option string)
    (s : Simulation T) (buf : string) :
  step (with_env h l f s) buf
  = rmap (fun sb => (with_env h l f sb.1, sb.2)) (step s buf).
Proof.
  unfold step. rewrite spawn_with_env. destruct (spawn s buf) as [s1 buf1].
  cbn [fst snd with_env balls]. unfold rmap.
  destruct (Simulation_update _ _) as [bs |]; reflexivity.
Qed.

Lemma loop_with_env (h : bool) (l : option Image) (f : option string) (fuel : nat) :
  forall (s : Simulation T) (buf : string),
    loop fuel (with_env h l f s) buf
    = rmap (fun sb => (with_env h l f sb.1, sb.2)) (loop fuel s buf).
Proof.
  induction fuel as [| fuel IH]; intros s buf; cbn [loop]; [reflexivity |].
  change (current_step (with_env h l f s)) with (current_step s).
  destruct (current_step s <? TOTAL_STEPS)%Z; [| reflexivity].
  rewrite step_with_env. unfold rmap at 1.
  destruct (step s buf) as [[s1 buf1] |]; [| reflexivity].
  cbn [bind fst snd]. apply IH.
Qed.

Lemma run_loop_with_env (h : bool) (l : option Image) (f : option string)
    (s : Simulation T) :
  run_loop (with_env h l f s)
  = rmap (fun sb => (with_env h l f sb.1, sb.2)) (run_loop s).
Proof. unfold run_loop. apply loop_with_env. Qed.

(** C1: the constructor seeds the generator with 42 whatever state it was
    in, and two runs of [calculate_positions] on new simulations, whatever
    the display mode, the state of the generator beforehand and the file
    already on disk, write the same spawn trace; with the same color
    source they leave the same file (or raise the same exception). *)
Theorem runs_are_reproducible (h1 h2 : bool) (l1 l2 : option Image)
    (a1 a2 : RNG) (f1 f2 : option string) :
  rng (Simulation_init (T := T) h1 l1 a1 f1) = random_seed 42 /\
  spawn_trace (Simulation_init (T := T) h1 l1 a1 f1)
  = spawn_trace (Simulation_init h2 l2 a2 f2) /\
  written (calculate_positions (Simulation_init (T := T) h1 l1 a1 f1))
  = written (calculate_positions (Simulation_init h2 l1 a2 f2)).
Proof.
  split; [reflexivity |]. split.
  - change (Simulation_init h2 l2 a2 f2)
      with (with_env h2 l2 f2 (Simulation_init (T := T) h1 l1 a1 f1)).
    unfold spawn_trace. rewrite run_loop_with_env. unfold rmap.
    destruct (run_loop _) as [[s buf] |]; reflexivity.
  - change (Simulation_init h2 l1 a2 f2)
      with (with_env h2 l1 f2 (Simulation_init (T := T) h1 l1 a1 f1)).
    unfold calculate_positions. rewrite run_loop_with_env. unfold rmap.
    destruct (run_loop _) as [[s buf] |] eqn:E; [| reflexivity].
    cbn [bind fst snd].
    assert (Hl : input_image s = l1) by exact (loop_input_image _ _ _ _ _ E).
    unfold map_colors, map_colors_text.
    cbn -[recolor_all Text.readlines sorted_by_step]. rewrite Hl.
    destruct l1 as [im |]; [| reflexivity].
    destruct (recolor_all _ _ _); reflexivity.
Qed.
End Determinism.

(** ** The spawn policy, over the reals *)

Section SpawnFacts.
Local Open Scope R_scope.
Context {runtime : Runtime R}.

End SpawnFacts.


(** ** The color pass *)

Section ColorPass.
Context {T : Type} {arith : Arith T} {trig : Trig T} {runtime : Runtime T}.

Lemma getpixel_inside (im : Image) (px py : Z) :
  (0 <= px < WIDTH)%Z -> (0 <= py < HEIGHT)%Z -> getpixel im px py = Ok (im px py).
Proof.
  intros Hx Hy. unfold getpixel.
  destruct (Z.ltb_spec px 0); [lia |]. destruct (Z.ltb_spec py 0); [lia |].
  destruct (Z.leb_spec 0 px); [| lia]. destruct (Z.ltb_spec px WIDTH); [| lia].
  destruct (Z.leb_spec 0 py); [| lia]. destruct (Z.ltb_spec py HEIGHT); [| lia].
  reflexivity.
Qed.

Lemma getpixel_outside (im : Image) (px py : Z) :
  (WIDTH <= px \/ HEIGHT <= py \/ px < - WIDTH \/ py < - HEIGHT)%Z ->
  getpixel im px py = Raise IndexError.
Proof.
  intros Hout. unfold getpixel.
  destruct (Z.ltb_spec px 0); destruct (Z.ltb_spec py 0);
    repeat match goal with
           | |- context [(?a <=? ?b)%Z] => destruct (Z.leb_spec a b)
           | |- context [(?a <? ?b)%Z] => destruct (Z.ltb_spec a b)
           end; cbn [andb]; try reflexivity; lia.
Qed.

(** A coordinate within one image size of zero is taken modulo the size:
    a negative one counts from the far edge. *)
Lemma getpixel_wrapped (im : Image) (px py : Z) :
  (- WIDTH <= px < WIDTH)%Z -> (- HEIGHT <= py < HEIGHT)%Z ->
  getpixel im px py = Ok (im (px mod WIDTH) (py mod HEIGHT))%Z.
Proof.
  intros Hx Hy. unfold getpixel.
  assert (Hmx : (px mod WIDTH = if px <? 0 then WIDTH + px else px)%Z).
  { destruct (Z.ltb_spec px 0).
    - symmetry. apply (Z.mod_unique_pos px WIDTH (-1)); lia.
    - apply Z.mod_small. lia. }
  assert (Hmy : (py mod HEIGHT = if py <? 0 then HEIGHT + py else py)%Z).
  { destruct (Z.ltb_spec py 0).
    - symmetry. apply (Z.mod_unique_pos py HEIGHT (-1)); lia.
    - apply Z.mod_small. lia. }
  rewrite Hmx, Hmy.
  destruct (Z.ltb_spec px 0); destruct (Z.ltb_spec py 0);
    repeat match goal with
           | |- context [(?a <=? ?b)%Z] => destruct (Z.leb_spec a b)
           | |- context [(?a <? ?b)%Z] => destruct (Z.ltb_spec a b)
           end; cbn [andb]; try reflexivity; lia.
Qed.

(** The only exception of the loop body is that of the sampler. *)
Lemma recolor_raises (im : Image) (b : Ball T) (line : string) (e : exn) :
  recolor im b line = Raise e ->
  getpixel im (to_int (x (position b))) (to_int (y (position b))) = Raise e.
Proof.
  unfold recolor. destruct (getpixel _ _ _); cbn [bind]; intros Hr;
    [discriminate | injection Hr as ->; reflexivity].
Qed.

Lemma recolor_all_raises (im : Image) (lines : list string) :
  forall (bs : list (Ball T)) (i : nat) (b : Ball T) (line : string),
    bs !! i = Some b -> lines !! i = Some line ->
    getpixel im (to_int (x (position b))) (to_int (y (position b))) = Raise IndexError ->
    recolor_all im lines bs = Raise IndexError.
Proof.
  induction lines as [| l0 lines IH]; intros bs i b line Hb Hl Hpix; [discriminate |].
  destruct bs as [| b0 bs]; [discriminate |]. cbn [recolor_all].
  destruct (recolor im b0 l0) as [t0 | e] eqn:E0.
  - cbn [bind]. destruct i as [| i]; cbn in Hb, Hl.
    + injection Hb as ->. unfold recolor in E0. rewrite Hpix in E0. discriminate.
    + rewrite (IH bs i b line Hb Hl Hpix). reflexivity.
  - cbn [bind]. apply recolor_raises in E0. unfold getpixel in E0.
    destruct (_ && _) in E0; [discriminate | injection E0 as <-; reflexivity].
Qed.

Lemma recolor_all_returns (im : Image) (lines : list string) :
  forall bs : list (Ball T),
    (forall (i : nat) (b : Ball T) (line : string),
        bs !! i = Some b -> lines !! i = Some line ->
        (- WIDTH <= to_int (x (position b)) < WIDTH)%Z /\
        (- HEIGHT <= to_int (y (position b)) < HEIGHT)%Z) ->
    exists text, recolor_all im lines bs = Ok text.
Proof.
  induction lines as [| l0 lines IH]; intros bs Hin; [cbn; eauto |].
  destruct bs as [| b0 bs]; [cbn; eauto |]. cbn [recolor_all].
  destruct (Hin 0%nat b0 l0 eq_refl eq_refl) as [Hx Hy].
  unfold recolor at 1. rewrite (getpixel_wrapped im _ _ Hx Hy). cbn [bind].
  destruct (IH bs) as [text ->]; [| cbn [bind]; eauto].
  intros i b line Hb Hl. exact (Hin (S i) b line Hb Hl).
Qed.

(** What [map_colors] does when a sampled position is outside the
    image. *)
Lemma map_colors_raises (s : Simulation T) (im : Image) (text : string)
    (i : nat) (b : Ball T) (line : string) :
  input_image s = Some im -> spawns_csv s = Some text ->
  sorted_by_step (balls s) !! i = Some b -> Text.readlines text !! i = Some line ->
  getpixel im (to_int (x (position b))) (to_int (y (position b))) = Raise IndexError ->
  map_colors s = Raised IndexError (Some text).
Proof.
  intros Him Htext Hb Hl Hpix. unfold map_colors, map_colors_text.
  rewrite Him, Htext. rewrite (recolor_all_raises im _ _ i b line Hb Hl Hpix).
  reflexivity.
Qed.

(** C6: without a color source [calculate_positions] does not run the
    color pass, and the file holds the spawn trace with its placeholder
    colours.  With a color source, a sampled coordinate from [-WIDTH]
    (resp. [-HEIGHT]) up to but not including [WIDTH] (resp. [HEIGHT]) is
    taken modulo the size, a negative one counting from the far edge: the
    body of the loop then writes the record with the colour of that pixel
    in place of the placeholder, and [map_colors] returns when every
    sampled position is in this range.  A coordinate beyond this range
    makes [map_colors] raise the IndexError of the sampler, the file being
    left as [calculate_positions] wrote it. *)
Theorem color_pass_failures (s : Simulation T) :
  (input_image s = None ->
     calculate_positions s
     = match run_loop s with
       | Ok (s', buf) => Returned (set_spawns_csv s' (Some buf))
       | Raise e => Raised e (spawns_csv s)
       end) /\
  (forall (im : Image) (b : Ball T) (line : string),
      let px := to_int (x (position b)) in
      let py := to_int (y (position b)) in
      (- WIDTH <= px < WIDTH)%Z -> (- HEIGHT <= py < HEIGHT)%Z ->
      let rgb := im (px mod WIDTH)%Z (py mod HEIGHT)%Z in
      let parts := Text.split Text.comma (Text.strip line) in
      recolor im b line
      = Ok (Text.join "," (take 6 parts
                           ++ [pretty rgb.1.1; pretty rgb.1.2; pretty rgb.2]
                           ++ drop 9 parts) ++ Text.nl)%string) /\
  (forall (im : Image) (text : string),
      input_image s = Some im -> spawns_csv s = Some text ->
      (forall (i : nat) (b : Ball T) (line : string),
          sorted_by_step (balls s) !! i = Some b ->
          Text.readlines text !! i = Some line ->
          (- WIDTH <= to_int (x (position b)) < WIDTH)%Z /\
          (- HEIGHT <= to_int (y (position b)) < HEIGHT)%Z) ->
      exists text', map_colors s = Returned (set_spawns_csv s (Some text'))) /\
  (forall (im : Image) (text : string) (i : nat) (b : Ball T) (line : string),
      input_image s = Some im -> spawns_csv s = Some text ->
      sorted_by_step (balls s) !! i = Some b ->
      Text.readlines text !! i = Some line ->
      (WIDTH <= to_int (x (position b)) \/ HEIGHT <= to_int (y (position b))
       \/ to_int (x (position b)) < - WIDTH \/ to_int (y (position b)) < - HEIGHT)%Z ->
      map_colors s = Raised IndexError (Some text)).
Proof.
  split; [| split; [| split]].
  - intros Him. unfold calculate_positions.
    destruct (run_loop s) as [[s' buf] |] eqn:E; [| reflexivity].
    cbn [set_spawns_csv input_image].
    rewrite (loop_input_image _ _ _ _ _ E), Him. reflexivity.
  - intros im b line px py Hx Hy rgb parts. unfold recolor.
    fold px py. rewrite (getpixel_wrapped im px py Hx Hy). reflexivity.
  - intros im text Him Htext Hin. unfold map_colors, map_colors_text.
    rewrite Him, Htext.
    destruct (recolor_all_returns im _ _ Hin) as [text' ->]. eauto.
  - intros im text i b line Him Htext Hb Hl Hout.
    eapply map_colors_raises; eauto using getpixel_outside.
Qed.
End ColorPass.

(** A ball whose centre is at x = 1200, outside the image of width 1000:
    [map_colors] raises, against the placeholder being kept without an
    error. *)
Lemma out_of_bounds_sample_raises :
  to_int (x (position (ball_of 1200 500 5 0))) = 1200%Z /\
  map_colors stray_simulation = Raised IndexError (spawns_csv stray_simulation).
Proof.
  assert (Hx : to_int (x (position (ball_of 1200 500 5 0))) = 1200%Z)
    by (cbn; apply Rtrunc_IZR).
  split; [exact Hx |].
  eapply (map_colors_raises stray_simulation _ _ 0%nat (ball_of 1200 500 5 0));
    try reflexivity.
  apply getpixel_outside. left. rewrite Hx. unfold WIDTH. lia.
Qed.

(** A ball whose centre is at x = -5, to the left of the image:
    [map_colors] returns, and the record carries the colour of the pixel
    of column 995. *)
Example negative_sample_wraps :
  to_int (x (position (ball_of (-5) 500 5 0))) = (-5)%Z /\
  map_colors wrapped_simulation
  = Returned (set_spawns_csv wrapped_simulation
                (Some ("0,500.0,500.0,5.0,499.5,500.0,995,20,30" ++ Text.nl)%string)).
Proof.
  assert (Hx : to_int (x (position (ball_of (-5) 500 5 0))) = (-5)%Z)
    by (cbn; apply Rtrunc_IZR).
  assert (Hy : to_int (y (position (ball_of (-5) 500 5 0))) = 500%Z)
    by (cbn; apply Rtrunc_IZR).
  split; [exact Hx |].
  unfold map_colors, map_colors_text. cbn [input_image spawns_csv wrapped_simulation].
  change (sorted_by_step (balls wrapped_simulation)) with [ball_of (-5) 500 5 0].
  change (Text.readlines ("0,500.0,500.0,5.0,499.5,500.0,80,80,80" ++ Text.nl))
    with ["0,500.0,500.0,5.0,499.5,500.0,80,80,80" ++ Text.nl]%string.
  cbn [recolor_all]. unfold recolor. rewrite Hx, Hy. reflexivity.
Qed.

(** ** The grid during the sweep of the solver *)

Section StaleGrid.
Local Open Scope R_scope.

(** The record of pairs is an annotation: [solve_collisions_log] moves the
    balls as [solve_collisions] does. *)
Lemma solve_collisions_log_erase (bs : list (Ball R)) :
  rmap fst (solve_collisions_log bs) = solve_collisions bs.
Proof.
  unfold solve_collisions_log, solve_collisions.
  generalize (update_grid bs) as grid. generalize (seq 0 (length bs)) as todo.
  generalize (@nil (nat * nat)) as log. generalize bs as cur.
  intros cur log todo grid. revert cur log.
  induction todo as [| i todo IH]; intros cur log; cbn [for_each]; [reflexivity |].
  unfold collide_nearby_log at 1, collide_nearby at 1. cbn [fst snd].
  destruct (cur !! i) as [b1 |]; [| cbn [bind]; apply IH].
  destruct (for_each (collide i) (get_nearby grid b1) cur) as [cur' |];
    [| reflexivity].
  cbn [bind]. apply IH.
Qed.

Lemma cell_of (px py : R) (cx cy : Z) :
  IZR cx * 56 <= px < (IZR cx + 1) * 56 ->
  IZR cy * 56 <= py < (IZR cy + 1) * 56 ->
  get_cell (vec2 px py) = (cx, cy).
Proof.
  intros Hx Hy. rewrite get_cell_floor. cbn [x y].
  change (IZR CELL_SIZE) with 56.
  f_equal; apply Zfloor_eq; split.
  - apply Rmult_le_reg_r with 56; [lra |]. unfold Rdiv. rewrite Rmult_assoc, Rinv_l; lra.
  - apply Rmult_lt_reg_r with 56; [lra |]. unfold Rdiv. rewrite Rmult_assoc, Rinv_l; lra.
  - apply Rmult_le_reg_r with 56; [lra |]. unfold Rdiv. rewrite Rmult_assoc, Rinv_l; lra.
  - apply Rmult_lt_reg_r with 56; [lra |]. unfold Rdiv. rewrite Rmult_assoc, Rinv_l; lra.
Qed.

Lemma get_nearby_at (g : gmap (Z * Z) (list nat)) (b : Ball R) (cx cy : Z) :
  IZR cx * 56 <= x (position b) < (IZR cx + 1) * 56 ->
  IZR cy * 56 <= y (position b) < (IZR cy + 1) * 56 ->
  get_nearby g b
  = flat_map (fun dx => flat_map (fun dy => bucket g (cx + dx, cy + dy)%Z) offsets) offsets.
Proof.
  intros Hx Hy. unfold get_nearby. destruct (position b) as [px py].
  rewrite (cell_of px py cx cy Hx Hy). reflexivity.
Qed.

Lemma grid_of_stale_triple :
  update_grid stale_triple = <[(2, 8)%Z := [2%nat]]> (<[(1, 8)%Z := [0%nat; 1%nat]]> ∅).
Proof.
  unfold update_grid, stale_triple, ball_of, new_ball. cbn [fill_grid position].
  rewrite (cell_of (117 / 2) 500 1 8) by lra.
  rewrite (cell_of (113 / 2) 500 1 8) by lra.
  rewrite (cell_of (449 / 4) 500 2 8) by lra.
  vm_compute. reflexivity.
Qed.

Lemma collide_self (i : nat) (bs : list (Ball R)) : collide i i bs = Ok bs.
Proof.
  unfold collide. destruct (bs !! i); [| reflexivity].
  rewrite Nat.eqb_refl. reflexivity.
Qed.

Lemma collide_step (i j : nat) (bs : list (Ball R)) :
  Forall constructed bs ->
  exists bs', collide i j bs = Ok bs'
              /\ Forall constructed bs' /\ length bs' = length bs
              /\ forall k : nat, k <> i -> k <> j -> bs' !! k = bs !! k.
Proof.
  intros Hall. destruct (collide_total i j bs Hall) as [bs' Hc].
  exists bs'. split; [exact Hc |].
  pose proof (collide_immutable _ _ _ _ Hc) as Him.
  split; [eapply Forall_constructed_immutable; eauto |].
  split; [apply (f_equal length) in Him; rewrite !length_fmap in Him; exact Him |].
  intros k Hi Hj. eapply collide_frame; eauto.
Qed.

Lemma inner_loop_total (i : nat) (near : list nat) (bs : list (Ball R)) :
  Forall constructed bs ->
  exists bs', for_each (collide i) near bs = Ok bs'
              /\ Forall constructed bs' /\ length bs' = length bs.
Proof.
  intros Hall.
  destruct (for_each_total (fun s => Forall constructed s /\ length s = length bs)
              (collide i) near) with (s := bs) as (bs' & Hrun & Hc & Hlen); [| auto |].
  - intros j s [Hs Hl]. destruct (collide_step i j s Hs) as (s' & Hc & Hs' & Hl' & _).
    exists s'. split; [exact Hc |]. split; [exact Hs' | lia].
  - exists bs'. auto.
Qed.

(** On [stale_triple] the second and the third ball overlap when the grid is
    rebuilt.  The first ball is handled first and pushes the second to the
    left, out of the column of cells it was filed under; when its turn
    comes the second ball looks around its new cell and the third ball, two
    columns away, is not among its candidates. *)
Lemma stale_grid_skips_pair :
  exists (a b : Ball R) (bs : list (Ball R)) (log : list (nat * nat)),
    stale_triple !! 1%nat = Some a /\ stale_triple !! 2%nat = Some b /\
    radius a <= IZR MAX_RADIUS /\ radius b <= IZR MAX_RADIUS /\
    R_sqrt.sqrt (length_squared (vsub (position a) (position b))) < radius a + radius b /\
    solve_collisions_log stale_triple = Ok (bs, log) /\
    (1%nat, 2%nat) ∉ log.
Proof.
  exists (ball_of (113 / 2) 500 28 1), (ball_of (449 / 4) 500 28 2).
  cut (exists bs log,
          solve_collisions_log stale_triple = Ok (bs, log) /\ (1%nat, 2%nat) ∉ log).
  { intros (bs & log & Hrun & Hlog). exists bs, log.
    split; [reflexivity |]. split; [reflexivity |].
    change (IZR MAX_RADIUS) with 28. cbn [radius ball_of new_ball].
    split; [lra |]. split; [lra |]. split; [| auto].
    unfold length_squared. cbn.
    replace ((113 / 2 - 449 / 4) * (113 / 2 - 449 / 4) + (500 - 500) * (500 - 500))
      with ((223 / 4) * (223 / 4)) by lra.
    rewrite sqrt_square; lra. }
  unfold solve_collisions_log. rewrite grid_of_stale_triple.
  set (grid := <[(2, 8)%Z := [2%nat]]> (<[(1, 8)%Z := [0%nat; 1%nat]]> ∅)).
  cbn [length stale_triple seq for_each].
  (* the first ball: it meets itself, the second and the third *)
  unfold collide_nearby_log at 1. cbn [fst snd].
  change (stale_triple !! 0%nat) with (Some (ball_of (117 / 2) 500 28 0)).
  cbv iota.
  rewrite (get_nearby_at grid (ball_of (117 / 2) 500 28 0) 1 8) by (cbn; lra).
  replace (flat_map _ offsets) with [0%nat; 1%nat; 2%nat] by (vm_compute; reflexivity).
  cbn [for_each]. rewrite collide_self. cbn [bind].
  pose proof (collide_overlapping stale_triple 0 1
                (ball_of (117 / 2) 500 28 0) (ball_of (113 / 2) 500 28 1)
                eq_refl eq_refl ltac:(discriminate) eq_refl eq_refl) as H01.
  cbv zeta in H01. rewrite H01 by (unfold length_squared; cbn; lra). clear H01.
  cbn [bind].
  match goal with
  | |- context [collide 0 2 ?t] => set (t1 := t)
  end.
  assert (H1 : exists a' : Ball R,
             t1 !! 1%nat = Some a'
             /\ 0 <= x (position a') < 56 /\ y (position a') = 500).
  { eexists. split; [reflexivity |]. cbn.
    unfold length_squared. cbn.
    replace ((117 / 2 - 113 / 2) * (117 / 2 - 113 / 2) + (500 - 500) * (500 - 500))
      with (2 * 2) by lra.
    rewrite sqrt_square by lra. unfold_config. cbn.
    pose proof PI_RGT_0 as Hpi. split; [| field; lra].
    replace (PI * (28 * 28) / (PI * (28 * 28) + PI * (28 * 28))) with (1 / 2)
      by (field; lra).
    lra. }
  assert (Hall1 : Forall constructed t1) by (unfold t1; cbn; repeat constructor).
  destruct H1 as (a' & Ha' & Hxa & Hya). clearbody t1.
  destruct (collide_step 0 2 t1 Hall1) as (t2 & -> & Hall2 & _ & Hf2).
  rewrite <- (Hf2 1%nat) in Ha' by discriminate.
  cbn [bind].
  (* the second ball, now left of the column it was filed under *)
  unfold collide_nearby_log at 1. cbn [fst snd]. rewrite Ha'.
  rewrite (get_nearby_at grid a' 0 8) by (cbn; lra).
  replace (flat_map _ offsets) with [0%nat; 1%nat] by (vm_compute; reflexivity).
  destruct (inner_loop_total 1 [0%nat; 1%nat] t2 Hall2) as (t3 & -> & Hall3 & _).
  cbn [bind].
  (* the third ball *)
  unfold collide_nearby_log. cbn [fst snd].
  destruct (t3 !! 2%nat) as [b3 |].
  - destruct (inner_loop_total 2 (get_nearby grid b3) t3 Hall3) as (t4 & -> & _).
    cbn [bind]. eexists _, _. split; [reflexivity |].
    cbn [map app]. intros Hin.
    repeat (apply elem_of_cons in Hin as [Hin | Hin]; [discriminate Hin |]).
    apply list_elem_of_In, in_map_iff in Hin as (k & Hk & _). discriminate.
  - eexists _, _. split; [reflexivity |].
    cbn [map app]. intros Hin.
    repeat (apply elem_of_cons in Hin as [Hin | Hin]; [discriminate Hin |]).
    apply elem_of_nil in Hin. contradiction.
Qed.
End StaleGrid.

(** ** Runs on sample data *)

Section Runs.
Local Open Scope R_scope.

Example split_record :
  Text.split Text.comma (Text.strip ("3,500.0,80" ++ Text.nl))
  = ["3"; "500.0"; "80"]%string.
Proof. reflexivity. Qed.

Example readlines_keeps_newlines :
  Text.readlines ("a,b" ++ Text.nl ++ "c,d" ++ Text.nl ++ "e")
  = [("a,b" ++ Text.nl); ("c,d" ++ Text.nl); "e"]%string.
Proof. reflexivity. Qed.

(** A line may end in a carriage return, alone or before the newline. *)
Example readlines_universal_newlines :
  Text.readlines ("a,b" ++ String "013" (String "010" ("c,d" ++ String "013" "e")))
  = [("a,b" ++ Text.nl); ("c,d" ++ Text.nl); "e"]%string.
Proof. reflexivity. Qed.

(** [map_colors] called without an image, which [calculate_positions] does
    not do: the first line and the first ball reach the sampler, on
    [None]. *)
Example map_colors_without_image :
  map_colors (with_env true None (spawns_csv stray_simulation) stray_simulation)
  = Raised AttributeError (spawns_csv stray_simulation)
  /\ map_colors (with_env true None (Some EmptyString) stray_simulation)
    = Returned (with_env true None (Some EmptyString) stray_simulation).
Proof. split; reflexivity. Qed.

(** One integration step: the velocity (1, 0) is kept and the acceleration
    (0, 480) adds [480 * dt * dt] to the position. *)
Example update_sample :
  update (mkBall (vec2 100 200) (vec2 99 200) (vec2 0 480) 5 (PI * (5 * 5)) 0 (80, 80, 80)%Z)
         (1 / 2)
  = mkBall (vec2 101 320) (vec2 100 200) (vec2 0 0) 5 (PI * (5 * 5)) 0 (80, 80, 80)%Z.
Proof.
  rewrite update_spec. unfold vadd, vsub, vscale. cbn. f_equal. f_equal; lra.
Qed.

(** The ball at the left wall is put back at [x = radius] and leaves with
    its horizontal velocity reversed and scaled by 0.9 * 0.95. *)
Example apply_constraints_sample :
  apply_constraints ball_at_wall
  = set_old_position (set_position ball_at_wall (vec2 5 500)) (vec2 (5 - 171 / 200) 500).
Proof.
  unfold apply_constraints, ball_at_wall. cbn.
  destruct (Rltb_spec (3 - 5) 0) as [_ | Hn]; [| lra].
  destruct (Rltb_spec (500 - 5) 0) as [Hn | _]; [lra |].
  destruct (Rltb_spec (IZR HEIGHT) (500 + 5)) as [Hn | _];
    [unfold HEIGHT in Hn; lra |].
  cbn. unfold set_old_position, set_position, vsub, vscale. cbn. unfold_config. cbn.
  f_equal. f_equal; lra.
Qed.

(** The color pass on a ball inside the image: the three colour fields of
    its record are replaced by the sample. *)
Example recolor_sample :
  recolor (fun _ _ => (10, 20, 30)%Z) (ball_of 640 480 5 0)
          ("0,500.0,500.0,5.0,499.5,500.0,80,80,80" ++ Text.nl)
  = Ok ("0,500.0,500.0,5.0,499.5,500.0,10,20,30" ++ Text.nl)%string.
Proof.
  unfold recolor. cbn [to_int real_arith x y position ball_of new_ball].
  rewrite !Rtrunc_IZR. reflexivity.
Qed.

(** With equal masses an overlapping pair is pushed apart by equal and
    opposite corrections. *)
Example equal_masses_split_evenly (bs : list (Ball R)) :
  collide 0 1 overlapping_pair = Ok bs ->
  exists c : Vector2 R,
    position <$> bs = [vadd (vec2 503 504) c; vsub (vec2 500 500) c].
Proof.
  pose proof (collide_overlapping overlapping_pair 0 1
                (ball_of 503 504 5 0) (ball_of 500 500 5 1)
                eq_refl eq_refl ltac:(discriminate) eq_refl eq_refl) as Hc.
  cbv zeta in Hc. rewrite Hc by (unfold length_squared; cbn; lra).
  intros [= <-]. eexists. cbn -[vadd vsub]. reflexivity.
Qed.
End Runs.

(** * Further properties *)

(** ** The grid: every ball is filed once, under its cell *)

Section GridContents.
Context {T : Type} {arith : Arith T}.

Lemma fill_grid_cell (bs : list (Ball T)) :
  forall (i : nat) (g : gmap (Z * Z) (list nat)) (c : Z * Z) (k : nat),
    k ∈ bucket (fill_grid i bs g) c ->
    k ∈ bucket g c \/
    exists (j : nat) (b : Ball T),
      k = (i + j)%nat /\ bs !! j = Some b /\ get_cell (position b) = c.
Proof.
  induction bs as [| b0 bs IH]; intros i g c k Hk; cbn [fill_grid] in Hk;
    [left; exact Hk |].
  apply IH in Hk as [Hk | (j & b & -> & Hb & Hc)].
  - rewrite bucket_grid_append in Hk.
    destruct (decide (get_cell (position b0) = c)) as [<- | _]; [| left; exact Hk].
    apply elem_of_app in Hk as [Hk | Hk]; [left; exact Hk | right].
    apply list_elem_of_singleton in Hk. exists 0%nat, b0.
    split; [lia |]. split; reflexivity.
  - right. exists (S j), b. split; [lia |]. split; [exact Hb | exact Hc].
Qed.

Lemma fill_grid_NoDup (bs : list (Ball T)) :
  forall (i : nat) (g : gmap (Z * Z) (list nat)) (c : Z * Z),
    NoDup (bucket g c) ->
    (forall k : nat, k ∈ bucket g c -> (k < i)%nat) ->
    NoDup (bucket (fill_grid i bs g) c).
Proof.
  induction bs as [| b0 bs IH]; intros i g c Hnd Hlt; cbn [fill_grid]; [exact Hnd |].
  apply IH.
  - rewrite bucket_grid_append.
    destruct (decide (get_cell (position b0) = c)) as [-> | _]; [| exact Hnd].
    apply NoDup_app. split; [exact Hnd |]. split; [| apply NoDup_singleton].
    intros k Hk Hk'. apply list_elem_of_singleton in Hk'. apply Hlt in Hk. lia.
  - intros k Hk. rewrite bucket_grid_append in Hk.
    destruct (decide (get_cell (position b0) = c)) as [-> | _].
    + apply elem_of_app in Hk as [Hk | Hk]; [apply Hlt in Hk; lia |].
      apply list_elem_of_singleton in Hk. lia.
    + apply Hlt in Hk. lia.
Qed.

Lemma bucket_empty (c : Z * Z) : bucket ∅ c = [].
Proof. unfold bucket. rewrite lookup_empty. reflexivity. Qed.

Lemma update_grid_bucket (balls : list (Ball T)) (c : Z * Z) :
  (forall k : nat,
      k ∈ bucket (update_grid balls) c <->
      exists b : Ball T, balls !! k = Some b /\ get_cell (position b) = c) /\
  NoDup (bucket (update_grid balls) c).
Proof.
  split.
  - intros k. split.
    + intros Hk. apply fill_grid_cell in Hk as [Hk | (j & b & -> & Hb & Hc)].
      * rewrite bucket_empty in Hk. apply elem_of_nil in Hk. contradiction.
      * exists b. auto.
    + intros (b & Hb & <-). apply update_grid_places. exact Hb.
  - apply fill_grid_NoDup.
    + rewrite bucket_empty. constructor.
    + intros k Hk. rewrite bucket_empty in Hk. apply elem_of_nil in Hk. contradiction.
Qed.

(** X1: after [update_grid], the bucket of a cell holds exactly the balls
    of the list whose position is in that cell, each once. *)
Theorem update_grid_contents (balls : list (Ball T)) (c : Z * Z) :
  (forall k : nat,
      k ∈ bucket (update_grid balls) c <->
      exists b : Ball T, balls !! k = Some b /\ get_cell (position b) = c) /\
  NoDup (bucket (update_grid balls) c).
Proof. exact (update_grid_bucket balls c). Qed.

Lemma NoDup_flat_map {A B} (f : A -> list B) (l : list A) :
  NoDup l ->
  (forall a, a ∈ l -> NoDup (f a)) ->
  (forall a a' b, a ∈ l -> a' ∈ l -> b ∈ f a -> b ∈ f a' -> a = a') ->
  NoDup (flat_map f l).
Proof.
  induction l as [| a l IH]; intros Hl Hf Hdis; cbn [flat_map]; [constructor |].
  apply NoDup_cons in Hl as [Ha Hl].
  apply NoDup_app. split; [apply Hf; left |]. split.
  - intros b Hb Hb'. apply list_elem_of_In, in_flat_map in Hb' as (a' & Ha' & Hb').
    apply list_elem_of_In in Ha', Hb'.
    assert (a = a') as <- by (eapply Hdis; eauto; [left | right; assumption]).
    contradiction.
  - apply IH; [exact Hl | |].
    + intros a' Ha'. apply Hf. right. exact Ha'.
    + intros a1 a2 b H1 H2. apply Hdis; right; assumption.
Qed.

Lemma offsets_elem (d : Z) : d ∈ offsets <-> (-1 <= d <= 1)%Z.
Proof.
  unfold offsets. rewrite !elem_of_cons, elem_of_nil. lia.
Qed.

Lemma offsets_NoDup : NoDup offsets.
Proof.
  unfold offsets. repeat (apply NoDup_cons; split);
    rewrite ?elem_of_cons, ?elem_of_nil; try lia. constructor.
Qed.

(** X2: on the grid rebuilt from the list, [get_nearby] yields exactly the
    balls whose cell is the cell of the query or one of the eight cells
    around it, and it yields each of them once. *)
Theorem get_nearby_contents (balls : list (Ball T)) (q : Ball T) :
  (forall k : nat,
      k ∈ get_nearby (update_grid balls) q <->
      exists b : Ball T,
        balls !! k = Some b /\
        (Z.abs ((get_cell (position b)).1 - (get_cell (position q)).1) <= 1)%Z /\
        (Z.abs ((get_cell (position b)).2 - (get_cell (position q)).2) <= 1)%Z) /\
  NoDup (get_nearby (update_grid balls) q).
Proof.
  split.
  - intros k. rewrite get_nearby_elem. split.
    + intros (dx & dy & Hdx & Hdy & Hk).
      apply update_grid_bucket in Hk as (b & Hb & Hc).
      apply offsets_elem in Hdx, Hdy.
      exists b. split; [exact Hb |]. rewrite Hc. cbn [fst snd]. lia.
    + intros (b & Hb & Hx & Hy).
      exists ((get_cell (position b)).1 - (get_cell (position q)).1)%Z,
             ((get_cell (position b)).2 - (get_cell (position q)).2)%Z.
      split; [apply offsets_elem; lia |]. split; [apply offsets_elem; lia |].
      apply update_grid_bucket. exists b. split; [exact Hb |].
      destruct (get_cell (position b)), (get_cell (position q)). cbn. f_equal; lia.
  - unfold get_nearby. destruct (get_cell (position q)) as [cx cy].
    apply NoDup_flat_map; [apply offsets_NoDup | |].
    + intros dx _. apply NoDup_flat_map; [apply offsets_NoDup | |].
      * intros dy _. apply update_grid_bucket.
      * intros dy dy' k _ _ Hk Hk'.
        apply update_grid_bucket in Hk as (b & Hb & Hc).
        apply update_grid_bucket in Hk' as (b' & Hb' & Hc').
        assert (b' = b) as -> by congruence. rewrite Hc in Hc'.
        injection Hc' as Hc'. lia.
    + intros dx dx' k _ _ Hk Hk'.
      apply list_elem_of_In, in_flat_map in Hk as (dy & _ & Hk).
      apply list_elem_of_In, in_flat_map in Hk' as (dy' & _ & Hk').
      apply list_elem_of_In, update_grid_bucket in Hk as (b & Hb & Hc).
      apply list_elem_of_In, update_grid_bucket in Hk' as (b' & Hb' & Hc').
      assert (b' = b) as -> by congruence. rewrite Hc in Hc'.
      injection Hc' as Hc' _. lia.
Qed.
End GridContents.

(** ** The solver as a whole *)

Section SolverFrame.
Context {T : Type} {arith : Arith T}.

Lemma collide_keeps {B : Type} (f : Ball T -> B) (i j : nat)
    (balls balls' : list (Ball T)) :
  (forall b p, f (set_position b p) = f b) ->
  collide i j balls = Ok balls' -> f <$> balls' = f <$> balls.
Proof.
  intros Hf. unfold collide.
  destruct (balls !! i) as [b1 |] eqn:Hi; [| intros [= <-]; reflexivity].
  destruct (balls !! j) as [b2 |] eqn:Hj; [| intros [= <-]; reflexivity].
  destruct (Nat.eqb i j) eqn:Hij; [intros [= <-]; reflexivity |].
  destruct (_ && _); [| intros [= <-]; reflexivity].
  destruct (vdiv _ _) as [normal |]; [| discriminate]. cbn [bind].
  destruct (fdiv (mass b2) _) as [ratio1 |]; [| discriminate]. cbn [bind].
  destruct (fdiv (mass b1) _) as [ratio2 |]; [| discriminate]. cbn [bind].
  intros [= <-]. apply Nat.eqb_neq in Hij.
  rewrite (fmap_insert_same f _ j b2).
  - apply (fmap_insert_same f _ i b1); [exact Hi | apply Hf].
  - rewrite list_lookup_insert_ne by exact Hij. exact Hj.
  - apply Hf.
Qed.

Lemma solve_collisions_keeps {B : Type} (f : Ball T -> B)
    (balls balls' : list (Ball T)) :
  (forall b p, f (set_position b p) = f b) ->
  solve_collisions balls = Ok balls' -> f <$> balls' = f <$> balls.
Proof.
  intros Hf. unfold solve_collisions. intros Hrun.
  eapply (for_each_inv (fun bs => f <$> bs = f <$> balls)) in Hrun;
    [exact Hrun | | reflexivity].
  intros i s s' Hc Hs. cbv beta. rewrite <- Hs. clear Hs Hrun.
  unfold collide_nearby in Hc. destruct (s !! i) as [b1 |]; [| injection Hc as <-; reflexivity].
  eapply (for_each_inv (fun bs => f <$> bs = f <$> s)) in Hc;
    [exact Hc | | reflexivity].
  intros j t t' Hc' Ht. cbv beta. rewrite <- Ht. exact (collide_keeps f i j t t' Hf Hc').
Qed.

(** X3: [solve_collisions] changes positions and nothing else: the list
    keeps its length and every ball its previous position, acceleration,
    radius, mass, creation step and colour. *)
Theorem solve_collisions_moves_positions_only (balls balls' : list (Ball T)) :
  solve_collisions balls = Ok balls' ->
  length balls' = length balls /\
  besides_position <$> balls' = besides_position <$> balls.
Proof.
  intros Hrun.
  pose proof (solve_collisions_keeps besides_position balls balls'
                ltac:(reflexivity) Hrun) as Hk.
  split; [| exact Hk].
  apply (f_equal length) in Hk. rewrite !length_fmap in Hk. exact Hk.
Qed.

Lemma for_each_fixed {A S} (body : A -> S -> result S) (l : list A) (s : S) :
  (forall a, a ∈ l -> body a s = Ok s) -> for_each body l s = Ok s.
Proof.
  induction l as [| a l IH]; intros Hbody; cbn [for_each]; [reflexivity |].
  rewrite Hbody by left. cbn [bind]. apply IH. intros a' Ha'. apply Hbody. right. exact Ha'.
Qed.

(** A list on which no pair is corrected is left as it is. *)
Lemma solve_collisions_fixed (balls : list (Ball T)) :
  (forall i j : nat, collide i j balls = Ok balls) -> solve_collisions balls = Ok balls.
Proof.
  intros Hc. unfold solve_collisions. apply for_each_fixed. intros i _.
  unfold collide_nearby. destruct (balls !! i); [| reflexivity].
  apply for_each_fixed. intros j _. apply Hc.
Qed.

(** A ball is never corrected against itself: on a list of one ball the
    solver returns the list as it is. *)
Lemma solve_collisions_single (b : Ball T) : solve_collisions [b] = Ok [b].
Proof.
  apply solve_collisions_fixed. intros i j. unfold collide.
  destruct i as [| i]; [| reflexivity].
  destruct j as [| j]; reflexivity.
Qed.

Lemma substep_accelerations (sub_dt : T) (balls balls' : list (Ball T)) :
  substep sub_dt balls = Ok balls' ->
  Forall (fun b => acceleration b = vec2 (of_int 0) (of_int 0)) balls'.
Proof.
  unfold substep. destruct (solve_collisions _) as [bs |]; [| discriminate].
  cbn [bind]. intros [= <-]. apply Forall_fmap, Forall_true. reflexivity.
Qed.

Lemma substeps_accelerations (n : nat) (sub_dt : T) :
  forall balls balls' : list (Ball T),
    (0 < n)%nat ->
    substeps n sub_dt balls = Ok balls' ->
    Forall (fun b => acceleration b = vec2 (of_int 0) (of_int 0)) balls'.
Proof.
  induction n as [| n IH]; intros balls balls' Hn Hrun; [lia |].
  cbn [substeps] in Hrun.
  destruct (substep sub_dt balls) as [bs |] eqn:E; [| discriminate].
  cbn [bind] in Hrun. destruct n as [| n].
  - cbn in Hrun. injection Hrun as <-. exact (substep_accelerations _ _ _ E).
  - eapply IH; [lia | exact Hrun].
Qed.
End SolverFrame.

Lemma solve_collisions_moves_positions_only_witness :
  exists bs' : list (Ball R),
    solve_collisions overlapping_pair = Ok bs' /\
    length bs' = 2%nat /\
    besides_position <$> bs' = besides_position <$> overlapping_pair.
Proof.
  destruct (solve_collisions_total overlapping_pair) as (bs' & Hrun & _).
  - repeat constructor.
  - exists bs'. split; [exact Hrun |].
    exact (solve_collisions_moves_positions_only overlapping_pair bs' Hrun).
Defined.

(** ** The solver over the reals: what a correction keeps and what it leaves *)

Section SolverReal.
Local Open Scope R_scope.

(** Outside its guard [collide] does nothing. *)
Lemma collide_outside_guard (balls : list (Ball R)) (i j : nat) (b1 b2 : Ball R) :
  balls !! i = Some b1 -> balls !! j = Some b2 ->
  ~ (0 < length_squared (vsub (position b1) (position b2))
       < (radius b1 + radius b2) * (radius b1 + radius b2)) ->
  collide i j balls = Ok balls.
Proof.
  intros Hi Hj Hg. unfold collide. rewrite Hi, Hj.
  destruct (Nat.eqb i j); [reflexivity |].
  cbn [ltb real_arith of_int add mul].
  destruct (Rltb_spec 0 (length_squared (vsub (position b1) (position b2))));
    [| reflexivity].
  destruct (Rltb_spec (length_squared (vsub (position b1) (position b2)))
              ((radius b1 + radius b2) * (radius b1 + radius b2)));
    [| reflexivity].
  exfalso. apply Hg. split; assumption.
Qed.

(** X4: when no two balls of the list overlap, [solve_collisions] returns
    the list as it is. *)
Theorem solve_collisions_separated (balls : list (Ball R)) :
  (forall (i j : nat) (b1 b2 : Ball R),
      i <> j -> balls !! i = Some b1 -> balls !! j = Some b2 ->
      (radius b1 + radius b2) * (radius b1 + radius b2)
        <= length_squared (vsub (position b1) (position b2))) ->
  solve_collisions balls = Ok balls.
Proof.
  intros Hsep. apply solve_collisions_fixed. intros i j.
  destruct (decide (i = j)) as [<- | Hij]; [apply collide_self |].
  destruct (balls !! i) as [b1 |] eqn:Hi;
    [| unfold collide; rewrite Hi; reflexivity].
  destruct (balls !! j) as [b2 |] eqn:Hj;
    [| unfold collide; rewrite Hi, Hj; reflexivity].
  apply (collide_outside_guard balls i j b1 b2 Hi Hj).
  specialize (Hsep i j b1 b2 Hij Hi Hj). lra.
Qed.

Lemma solve_collisions_separated_witness : solve_collisions distant_pair = Ok distant_pair.
Proof.
  apply (solve_collisions_separated distant_pair).
  intros i j b1 b2 Hij Hi Hj.
  destruct i as [| [| i]]; destruct j as [| [| j]];
    try discriminate; try congruence;
    cbn in Hi, Hj; injection Hi as <-; injection Hj as <-;
    unfold length_squared; cbn; lra.
Defined.

(** X5: a correction keeps the centre of mass of the pair: the
    mass-weighted sum of the two positions is the same before and after
    [collide], whether or not the pair overlaps. *)
Theorem collide_keeps_centre_of_mass (balls : list (Ball R)) (i j : nat)
    (b1 b2 : Ball R) :
  balls !! i = Some b1 -> balls !! j = Some b2 -> i <> j ->
  constructed b1 -> constructed b2 ->
  exists (balls' : list (Ball R)) (b1' b2' : Ball R),
    collide i j balls = Ok balls' /\
    balls' !! i = Some b1' /\ balls' !! j = Some b2' /\
    mass b1 * x (position b1') + mass b2 * x (position b2')
      = mass b1 * x (position b1) + mass b2 * x (position b2) /\
    mass b1 * y (position b1') + mass b2 * y (position b2')
      = mass b1 * y (position b1) + mass b2 * y (position b2).
Proof.
  intros Hi Hj Hij C1 C2.
  destruct (Rlt_dec 0 (length_squared (vsub (position b1) (position b2)))) as [H0 | H0];
    [destruct (Rlt_dec (length_squared (vsub (position b1) (position b2)))
                 ((radius b1 + radius b2) * (radius b1 + radius b2))) as [H1 | H1] |].
  - destruct (guard_facts b1 b2 C1 C2 (conj H0 H1)) as (Hd & _ & Hm).
    pose proof (collide_overlapping balls i j b1 b2 Hi Hj Hij C1 C2 (conj H0 H1)) as Hc.
    cbv zeta in Hc. rewrite Hc. eexists _, _, _. split; [reflexivity |].
    split; [| split].
    + rewrite list_lookup_insert_ne by congruence.
      apply list_lookup_insert_eq. eapply lookup_lt_Some; eauto.
    + apply list_lookup_insert_eq. rewrite length_insert. eapply lookup_lt_Some; eauto.
    + revert Hd. generalize (R_sqrt.sqrt (length_squared (vsub (position b1) (position b2)))).
      intros d Hd. unfold vadd, vsub, vscale. cbn. split; field; lra.
  - exists balls, b1, b2.
    rewrite (collide_outside_guard balls i j b1 b2 Hi Hj) by tauto. auto.
  - exists balls, b1, b2.
    rewrite (collide_outside_guard balls i j b1 b2 Hi Hj) by tauto. auto.
Qed.

Lemma collide_keeps_centre_of_mass_witness :
  exists bs : list (Ball R), collide 0 1 overlapping_pair = Ok bs.
Proof.
  destruct (collide_keeps_centre_of_mass overlapping_pair 0 1
              (ball_of 503 504 5 0) (ball_of 500 500 5 1)
              eq_refl eq_refl ltac:(discriminate) eq_refl eq_refl)
    as (bs & _ & _ & Hrun & _).
  exists bs. exact Hrun.
Defined.

(** X6: a correction closes 47.5 % of the penetration and no more: for an
    overlapping pair of balls of positive radius at distance [dist], with [min_d] the sum of the radii,
    the distance after [collide] is [dist + (min_d - dist) * 19 / 40], which
    is more than [dist] and still less than [min_d]. *)
Theorem collide_partial_separation (balls : list (Ball R)) (i j : nat)
    (b1 b2 : Ball R) :
  balls !! i = Some b1 -> balls !! j = Some b2 -> i <> j ->
  constructed b1 -> constructed b2 -> 0 < radius b1 -> 0 < radius b2 ->
  let dist := R_sqrt.sqrt (length_squared (vsub (position b1) (position b2))) in
  let min_d := radius b1 + radius b2 in
  0 < length_squared (vsub (position b1) (position b2)) < min_d * min_d ->
  exists (balls' : list (Ball R)) (b1' b2' : Ball R),
    collide i j balls = Ok balls' /\
    balls' !! i = Some b1' /\ balls' !! j = Some b2' /\
    R_sqrt.sqrt (length_squared (vsub (position b1') (position b2')))
      = dist + (min_d - dist) * (19 / 40) /\
    dist < dist + (min_d - dist) * (19 / 40) < min_d.
Proof.
  intros Hi Hj Hij C1 C2 Hr1 Hr2 dist min_d Hg.
  destruct (guard_facts b1 b2 C1 C2 Hg) as (Hd & Hlt & Hm).
  fold dist in Hd, Hlt. fold min_d in Hlt.
  assert (Hmin : 0 < min_d) by (unfold min_d; lra).
  specialize (Hlt Hmin).
  pose proof (collide_overlapping balls i j b1 b2 Hi Hj Hij C1 C2 Hg) as Hc.
  cbv zeta in Hc. rewrite Hc. eexists _, _, _. split; [reflexivity |].
  split; [| split; [| split]].
  - rewrite list_lookup_insert_ne by congruence.
    apply list_lookup_insert_eq. eapply lookup_lt_Some; eauto.
  - apply list_lookup_insert_eq. rewrite length_insert. eapply lookup_lt_Some; eauto.
  - cbn [position set_position]. fold dist. fold min_d.
    set (k := 1 + (min_d - dist) / 2 * (95 / 100) / dist).
    assert (Hk : 0 <= k).
    { unfold k. apply Rplus_le_le_0_compat; [lra |].
      apply Rmult_le_pos; [nra | left; apply Rinv_0_lt_compat; exact Hd]. }
    match goal with
    | |- R_sqrt.sqrt (length_squared ?v) = _ =>
        replace v with (vscale (vsub (position b1) (position b2)) k)
    end.
    + rewrite (norm_vscale _ k Hk). fold dist. unfold k. field. lra.
    + unfold k, vadd, vsub, vscale. unfold_config. cbn. f_equal; field; lra.
  - lra.
Qed.

Lemma collide_partial_separation_witness :
  0 < length_squared (vsub (vec2 503 504) (vec2 (T := R) 500 500)) < (5 + 5) * (5 + 5) /\
  exists bs : list (Ball R), collide 0 1 overlapping_pair = Ok bs.
Proof.
  assert (Hg : 0 < length_squared (vsub (vec2 503 504) (vec2 (T := R) 500 500))
               < (5 + 5) * (5 + 5))
    by (unfold length_squared; cbn; lra).
  split; [exact Hg |].
  destruct (collide_partial_separation overlapping_pair 0 1
              (ball_of 503 504 5 0) (ball_of 500 500 5 1)
              eq_refl eq_refl ltac:(discriminate) eq_refl eq_refl
              ltac:(cbn; lra) ltac:(cbn; lra) Hg)
    as (bs & _ & _ & Hrun & _).
  exists bs. exact Hrun.
Defined.
End SolverReal.

(** ** One substep of one ball *)

Section SingleBall.
Local Open Scope R_scope.

(** X7: a substep of a simulation of one ball of positive mass whose circle
    is inside the world.  The ball is not corrected against itself; the
    boundary pass, though no wall is touched, scales the velocity carried by
    the two positions by COLLISION_DAMPING; gravity enters as a force, so
    the displacement it adds is [981 / mass * dt * dt].  The previous
    position becomes the position, and the acceleration is zero again. *)
Theorem substep_single_ball (b : Ball R) (dt : R) :
  0 < mass b ->
  radius b <= x (position b) <= IZR WIDTH - radius b ->
  radius b <= y (position b) <= IZR HEIGHT - radius b ->
  exists b' : Ball R,
    substep dt [b] = Ok [b'] /\
    x (position b')
      = x (position b) + (x (position b) - x (old_position b)) * (95 / 100)
        + x (acceleration b) * dt * dt /\
    y (position b')
      = y (position b) + (y (position b) - y (old_position b)) * (95 / 100)
        + (y (acceleration b) + 981 / mass b) * dt * dt /\
    old_position b' = position b /\
    acceleration b' = vec2 0 0 /\
    immutable b' = immutable b.
Proof.
  intros Hm Hx Hy. unfold substep. cbn [fmap list_fmap].
  rewrite solve_collisions_single. cbn [bind fmap list_fmap].
  eexists. split; [reflexivity |].
  unfold accelerate. cbn [ltb real_arith of_int].
  destruct (Rltb_spec 0 (mass b)) as [_ | Hn]; [| lra].
  rewrite update_spec. cbn [position old_position acceleration immutable radius mass
                              step_added color].
  unfold apply_constraints.
  cbn [position old_position acceleration radius set_acceleration x y vsub
         sub add ltb real_arith of_int].
  destruct (Rltb_spec (x (position b) - radius b) 0) as [Hn | _]; [lra |].
  destruct (Rltb_spec (IZR WIDTH) (x (position b) + radius b)) as [Hn | _]; [lra |].
  destruct (Rltb_spec (y (position b) - radius b) 0) as [Hn | _]; [lra |].
  destruct (Rltb_spec (IZR HEIGHT) (y (position b) + radius b)) as [Hn | _]; [lra |].
  unfold vadd, vsub, vscale, GRAVITY. unfold_config. cbn.
  destruct (position b) as [px py]. cbn.
  split; [field; lra |]. split; [field; lra |]. auto.
Qed.

Lemma substep_single_ball_witness :
  exists b' : Ball R, substep (1 / 480) [ball_of 500 500 5 0] = Ok [b'].
Proof.
  destruct (substep_single_ball (ball_of 500 500 5 0) (1 / 480))
    as (b' & Hrun & _).
  - cbn. pose proof PI_RGT_0. nra.
  - cbn. unfold WIDTH. lra.
  - cbn. unfold HEIGHT. lra.
  - exists b'. exact Hrun.
Defined.
End SingleBall.

(** ** The run of calculate_positions: who is spawned, and what is traced *)

Section Census.
Context {T : Type} {arith : Arith T} {trig : Trig T} {runtime : Runtime T}.

Lemma string_app_cons (c : ascii) (s1 s2 : string) :
  (String c s1 ++ s2 = String c (s1 ++ s2))%string.
Proof. reflexivity. Qed.

Lemma string_app_assoc (s1 s2 s3 : string) :
  ((s1 ++ s2) ++ s3 = s1 ++ (s2 ++ s3))%string.
Proof.
  induction s1 as [| c s1 IH]; [reflexivity |].
  rewrite !string_app_cons, IH. reflexivity.
Qed.

Lemma string_app_empty_r (s : string) : (s ++ "" = s)%string.
Proof.
  induction s as [| c s IH]; [reflexivity |].
  rewrite string_app_cons, IH. reflexivity.
Qed.

Lemma trace_of_app (l1 l2 : list (Ball T)) :
  trace_of (l1 ++ l2) = (trace_of l1 ++ trace_of l2)%string.
Proof.
  induction l1 as [| b l1 IH]; [reflexivity |].
  change (trace_of ((b :: l1) ++ l2))
    with (spawn_record (step_added b) b ++ trace_of (l1 ++ l2))%string.
  change (trace_of (b :: l1))
    with (spawn_record (step_added b) b ++ trace_of l1)%string.
  rewrite IH, string_app_assoc. reflexivity.
Qed.

(** A list already in creation order is not reordered by the sort. *)
Lemma insert_by_step_last (l : list (Ball T)) (b : Ball T) :
  Forall (fun c => (step_added c <= step_added b)%Z) l ->
  insert_by_step b l = l ++ [b].
Proof.
  induction l as [| c l IH]; intros Hall; cbn; [reflexivity |].
  inversion Hall as [| ? ? Hc Hl]; subst.
  destruct (Z.leb_spec (step_added c) (step_added b)); [| lia].
  rewrite IH by exact Hl. reflexivity.
Qed.

Lemma fold_insert_ordered (l : list (Ball T)) :
  forall acc : list (Ball T),
    (forall (i j : nat) (bi bj : Ball T),
        (i <= j)%nat -> (acc ++ l) !! i = Some bi -> (acc ++ l) !! j = Some bj ->
        (step_added bi <= step_added bj)%Z) ->
    fold_left (fun acc b => insert_by_step b acc) l acc = acc ++ l.
Proof.
  induction l as [| b l IH]; intros acc Hord; cbn [fold_left].
  - rewrite app_nil_r. reflexivity.
  - rewrite insert_by_step_last.
    + rewrite IH; rewrite <- app_assoc; [reflexivity | exact Hord].
    + apply Forall_lookup. intros i c Hc.
      apply (Hord i (length acc) c b).
      * apply lookup_lt_Some in Hc. lia.
      * rewrite lookup_app_l by (eapply lookup_lt_Some; eauto). exact Hc.
      * rewrite lookup_app_r by lia. rewrite Nat.sub_diag. reflexivity.
Qed.

Lemma sorted_by_step_ordered (l : list (Ball T)) :
  (forall (i j : nat) (bi bj : Ball T),
      (i <= j)%nat -> l !! i = Some bi -> l !! j = Some bj ->
      (step_added bi <= step_added bj)%Z) ->
  sorted_by_step l = l.
Proof. intros Hord. unfold sorted_by_step. apply (fold_insert_ordered l []). exact Hord. Qed.


Lemma step_added_of_immutable (l : list (Ball T)) :
  step_added <$> l = (fun i : T * T * Z * (Z * Z * Z) => i.1.2) <$> (immutable <$> l).
Proof. rewrite <- list_fmap_compose. reflexivity. Qed.

Lemma spawn_ball_fields (n : Z) (g : RNG) :
  step_added (spawn_ball n g).1 = n /\
  acceleration (spawn_ball n g).1 = vec2 (of_int 0) (of_int 0).
Proof.
  unfold spawn_ball, random_uniform, Ball_init. draw_all. split; reflexivity.
Qed.

Lemma step_counter (s s' : Simulation T) (buf buf' : string) :
  step s buf = Ok (s', buf') -> current_step s' = (current_step s + 1)%Z.
Proof.
  unfold step, spawn.
  destruct (spawn_guard s); [destruct (spawn_ball _ _) |];
    destruct (Simulation_update _ _); try discriminate;
    intros [= <- _]; reflexivity.
Qed.

Lemma step_census (s s' : Simulation T) (buf buf' : string) :
  census s buf -> step s buf = Ok (s', buf') -> census s' buf'.
Proof.
  intros (k & spawned & Hk & Hsteps & Hbuf & Himm & Hacc) Hstep.
  assert (Hlen : length (balls s) = Nat.min k MAX_OBJECTS).
  { apply (f_equal length) in Hsteps.
    rewrite !length_fmap, length_seq in Hsteps. exact Hsteps. }
  pose proof (step_counter _ _ _ _ Hstep) as Hn.
  unfold step in Hstep.
  destruct (spawn s buf) as [s1 buf1] eqn:Hspawn.
  destruct (Simulation_update FIXED_DT (balls s1)) as [bs |] eqn:Hupd; [| discriminate].
  cbn [bind] in Hstep. injection Hstep as <- <-.
  pose proof (Simulation_update_immutable _ _ _ Hupd) as Hbs.
  assert (Hzero : Forall (fun b => acceleration b = vec2 (of_int 0) (of_int 0)) bs).
  { unfold Simulation_update in Hupd.
    eapply substeps_accelerations; [| exact Hupd]. unfold SUBSTEPS. lia. }
  exists (S k).
  destruct (spawn_guard s) eqn:Hg.
  - rewrite (spawn_appends s buf Hg) in Hspawn. injection Hspawn as <- <-.
    apply spawn_guard_true in Hg as [_ Hroom].
    destruct (spawn_ball_fields (current_step s) (rng s)) as [Hsa _].
    set (b := (spawn_ball (current_step s) (rng s)).1) in *.
    exists (spawned ++ [b]).
    cbn [balls current_step set_balls set_rng set_current_step] in *.
    split; [lia |]. split; [| split; [| split; [| exact Hzero]]].
    + rewrite step_added_of_immutable, Hbs, <- step_added_of_immutable.
      rewrite fmap_app, Hsteps. cbn [fmap list_fmap]. rewrite Hsa, Hk.
      replace (Nat.min k MAX_OBJECTS) with k by lia.
      replace (Nat.min (S k) MAX_OBJECTS) with (S k) by lia.
      rewrite seq_S, fmap_app. reflexivity.
    + rewrite trace_of_app, Hbuf. unfold trace_of at 3. cbn [foldr].
      rewrite string_app_empty_r, Hsa. reflexivity.
    + rewrite Hbs, !fmap_app, Himm. reflexivity.
  - rewrite (spawn_skips s buf Hg) in Hspawn. injection Hspawn as <- <-.
    exists spawned.
    cbn [balls current_step set_balls set_current_step] in *.
    assert (Hfull : (MAX_OBJECTS <= k)%nat).
    { unfold spawn_guard in Hg. apply andb_false_iff in Hg as [Hg | Hg].
      - unfold SPAWN_INTERVAL in Hg. rewrite Z.mod_1_r in Hg. discriminate.
      - apply Nat.ltb_ge in Hg. lia. }
    split; [lia |]. split; [| split; [exact Hbuf | split; [| exact Hzero]]].
    + rewrite step_added_of_immutable, Hbs, <- step_added_of_immutable, Hsteps.
      replace (Nat.min (S k) MAX_OBJECTS) with (Nat.min k MAX_OBJECTS) by lia.
      reflexivity.
    + rewrite Hbs. exact Himm.
Qed.

Lemma loop_census (fuel : nat) :
  forall (s s' : Simulation T) (buf buf' : string),
    census s buf -> loop fuel s buf = Ok (s', buf') -> census s' buf'.
Proof.
  induction fuel as [| fuel IH]; intros s s' buf buf' Hc Hrun; cbn [loop] in Hrun.
  - injection Hrun as <- <-. exact Hc.
  - destruct (current_step s <? TOTAL_STEPS)%Z; [| injection Hrun as <- <-; exact Hc].
    destruct (step s buf) as [[s1 buf1] |] eqn:E; [| discriminate].
    cbn [bind fst snd] in Hrun.
    eapply IH; [| exact Hrun]. eapply step_census; eauto.
Qed.

Lemma loop_counter (fuel : nat) :
  forall (s s' : Simulation T) (buf buf' : string),
    fuel = Z.to_nat (TOTAL_STEPS - current_step s) ->
    loop fuel s buf = Ok (s', buf') ->
    current_step s' = Z.max TOTAL_STEPS (current_step s).
Proof.
  induction fuel as [| fuel IH]; intros s s' buf buf' Hfuel Hrun; cbn [loop] in Hrun.
  - injection Hrun as <- _. lia.
  - destruct (Z.ltb_spec (current_step s) TOTAL_STEPS) as [Hlt | Hge];
      [| injection Hrun as <- _; lia].
    destruct (step s buf) as [[s1 buf1] |] eqn:E; [| discriminate].
    cbn [bind fst snd] in Hrun.
    pose proof (step_counter _ _ _ _ E) as Hn.
    rewrite (IH s1 s' buf1 buf' ltac:(lia) Hrun). lia.
Qed.

Lemma census_init (h : bool) (l : option Image) (a : RNG) (f : option string) :
  census (Simulation_init (T := T) h l a f) EmptyString.
Proof.
  exists 0%nat, []. cbn. repeat split; constructor.
Qed.

Lemma run_loop_census (h : bool) (l : option Image) (a : RNG) (f : option string)
    (s' : Simulation T) (buf' : string) :
  run_loop (Simulation_init h l a f) = Ok (s', buf') ->
  exists spawned : list (Ball T),
    current_step s' = TOTAL_STEPS /\
    step_added <$> balls s' = Z.of_nat <$> seq 0 MAX_OBJECTS /\
    buf' = trace_of spawned /\
    immutable <$> spawned = immutable <$> balls s' /\
    Forall (fun b => acceleration b = vec2 (of_int 0) (of_int 0)) (balls s').
Proof.
  intros Hrun. unfold run_loop in Hrun.
  pose proof (loop_counter _ _ _ _ _ eq_refl Hrun) as Hn.
  destruct (loop_census _ _ _ _ _ (census_init h l a f) Hrun)
    as (k & spawned & Hk & Hsteps & Hbuf & Himm & Hacc).
  cbn [current_step Simulation_init] in Hn.
  assert (k = 1000%nat) as -> by (unfold TOTAL_STEPS in Hn; lia).
  exists spawned. split; [exact Hn |]. split; [exact Hsteps |]. auto.
Qed.

Lemma sorted_by_step_seq (l : list (Ball T)) (n : nat) :
  step_added <$> l = Z.of_nat <$> seq 0 n -> sorted_by_step l = l.
Proof.
  intros Hsteps. apply sorted_by_step_ordered. intros i j bi bj Hij Hi Hj.
  assert (Hsi : (step_added <$> l) !! i = Some (step_added bi))
    by (rewrite list_lookup_fmap, Hi; reflexivity).
  assert (Hsj : (step_added <$> l) !! j = Some (step_added bj))
    by (rewrite list_lookup_fmap, Hj; reflexivity).
  rewrite Hsteps, list_lookup_fmap in Hsi, Hsj.
  destruct (seq 0 n !! i) as [ni |] eqn:Ei; [| discriminate].
  destruct (seq 0 n !! j) as [nj |] eqn:Ej; [| discriminate].
  apply lookup_seq in Ei as [-> _]. apply lookup_seq in Ej as [-> _].
  cbn in Hsi, Hsj. injection Hsi as <-. injection Hsj as <-. lia.
Qed.

(** X8: when the loop of [calculate_positions] on a new simulation returns,
    it has done TOTAL_STEPS iterations and there are MAX_OBJECTS balls, the
    ones created at the steps 0, 1, ..., MAX_OBJECTS - 1, in this order:
    one ball per step until the capacity is reached, and none after.  The
    balls being in creation order, the sort of [map_colors] leaves the list
    as it is. *)
Theorem core_run_population (h : bool) (l : option Image) (a : RNG) (f : option string)
    (s' : Simulation T) (buf' : string) :
  run_loop (Simulation_init h l a f) = Ok (s', buf') ->
  current_step s' = TOTAL_STEPS /\
  length (balls s') = MAX_OBJECTS /\
  step_added <$> balls s' = Z.of_nat <$> seq 0 MAX_OBJECTS /\
  sorted_by_step (balls s') = balls s'.
Proof.
  intros Hrun.
  destruct (run_loop_census h l a f s' buf' Hrun) as (spawned & Hn & Hsteps & _).
  split; [exact Hn |]. split; [| split; [exact Hsteps |]].
  - apply (f_equal length) in Hsteps.
    rewrite !length_fmap, length_seq in Hsteps. exact Hsteps.
  - eapply sorted_by_step_seq. exact Hsteps.
Qed.

(** X9: when the loop returns, the text it has accumulated is the sequence
    of the records of the balls as they were spawned, one record per live
    ball and in the order of the balls; the i-th record was written for the
    i-th ball, whose radius, mass, creation step and colour have not changed
    since. *)
Theorem core_run_trace (h : bool) (l : option Image) (a : RNG) (f : option string)
    (s' : Simulation T) (buf' : string) :
  run_loop (Simulation_init h l a f) = Ok (s', buf') ->
  exists spawned : list (Ball T),
    buf' = trace_of spawned /\
    length spawned = length (balls s') /\
    immutable <$> spawned = immutable <$> balls s'.
Proof.
  intros Hrun.
  destruct (run_loop_census h l a f s' buf' Hrun) as (spawned & _ & _ & Hbuf & Himm & _).
  exists spawned. split; [exact Hbuf |]. split; [| exact Himm].
  apply (f_equal length) in Himm. rewrite !length_fmap in Himm. exact Himm.
Qed.

(** X10: the acceleration accumulator does not carry over: whatever the
    balls were, after [Simulation.update] the acceleration of every ball is
    zero, and so it is after every iteration of the loop of
    [calculate_positions]. *)
Theorem accelerations_are_reset :
  (forall (dt : T) (bs bs' : list (Ball T)),
      Simulation_update dt bs = Ok bs' ->
      Forall (fun b => acceleration b = vec2 (of_int 0) (of_int 0)) bs') /\
  (forall (h : bool) (l : option Image) (a : RNG) (f : option string)
          (fuel : nat) (s' : Simulation T) (buf' : string),
      loop fuel (Simulation_init h l a f) EmptyString = Ok (s', buf') ->
      Forall (fun b => acceleration b = vec2 (of_int 0) (of_int 0)) (balls s')).
Proof.
  split.
  - intros dt bs bs' Hupd. unfold Simulation_update in Hupd.
    eapply substeps_accelerations; [| exact Hupd]. unfold SUBSTEPS. lia.
  - intros h l a f fuel s' buf' Hrun.
    destruct (loop_census _ _ _ _ _ (census_init h l a f) Hrun)
      as (k & spawned & _ & _ & _ & _ & Hacc).
    exact Hacc.
Qed.
End Census.

Lemma core_run_population_witness :
  exists (s' : Simulation R) (buf' : string),
    run_loop new_simulation = Ok (s', buf') /\ length (balls s') = MAX_OBJECTS.
Proof.
  destruct (core_run_completes (runtime := midpoint_runtime) false None O None)
    as (s' & buf' & Hrun & _).
  exists s', buf'. split; [exact Hrun |].
  exact (proj1 (proj2 (core_run_population (runtime := midpoint_runtime)
                         false None O None s' buf' Hrun))).
Defined.

Lemma core_run_trace_witness :
  exists (s' : Simulation R) (buf' : string) (spawned : list (Ball R)),
    run_loop new_simulation = Ok (s', buf')
    /\ buf' = trace_of (runtime := midpoint_runtime) spawned.
Proof.
  destruct (core_run_completes (runtime := midpoint_runtime) false None O None)
    as (s' & buf' & Hrun & _).
  destruct (core_run_trace (runtime := midpoint_runtime) false None O None s' buf' Hrun)
    as (spawned & Hbuf & _).
  exists s', buf', spawned. split; [exact Hrun | exact Hbuf].
Defined.

(** ** The trace as text: written, read back, rewritten *)

Section TextFacts.

Lemma list_ascii_app (s1 s2 : string) :
  list_ascii_of_string (s1 ++ s2) = list_ascii_of_string s1 ++ list_ascii_of_string s2.
Proof.
  induction s1 as [| c s1 IH]; [reflexivity |].
  rewrite string_app_cons. cbn. rewrite IH. reflexivity.
Qed.

Lemma string_of_list_ascii_app (l1 l2 : list ascii) :
  string_of_list_ascii (l1 ++ l2)
  = (string_of_list_ascii l1 ++ string_of_list_ascii l2)%string.
Proof.
  induction l1 as [| c l1 IH]; [reflexivity |].
  cbn. rewrite IH, string_app_cons. reflexivity.
Qed.

Lemma split_from_field (sep : ascii) (f : list ascii) :
  forall (cur rest : list ascii),
    sep ∉ f ->
    Text.split_from sep cur (f ++ sep :: rest)
    = string_of_list_ascii (rev cur ++ f) :: Text.split_from sep [] rest.
Proof.
  induction f as [| c f IH]; intros cur rest Hf; cbn [app Text.split_from].
  - rewrite Ascii.eqb_refl, app_nil_r. reflexivity.
  - apply not_elem_of_cons in Hf as [Hc Hf].
    destruct (Ascii.eqb_spec c sep) as [-> | _]; [contradiction |].
    rewrite IH by exact Hf. cbn [rev]. rewrite <- app_assoc. reflexivity.
Qed.

Lemma split_from_last (sep : ascii) (f : list ascii) :
  forall cur : list ascii,
    sep ∉ f ->
    Text.split_from sep cur f = [string_of_list_ascii (rev cur ++ f)].
Proof.
  induction f as [| c f IH]; intros cur Hf; cbn [Text.split_from].
  - rewrite app_nil_r. reflexivity.
  - apply not_elem_of_cons in Hf as [Hc Hf].
    destruct (Ascii.eqb_spec c sep) as [-> | _]; [contradiction |].
    rewrite IH by exact Hf. cbn [rev]. rewrite <- app_assoc. reflexivity.
Qed.

Lemma join_cons (f f' : string) (fs : list string) :
  Text.join "," (f :: f' :: fs) = (f ++ "," ++ Text.join "," (f' :: fs))%string.
Proof. reflexivity. Qed.

Lemma split_join (fs : list string) :
  fs <> [] ->
  Forall (fun f => Text.comma ∉ list_ascii_of_string f) fs ->
  Text.split Text.comma (Text.join "," fs) = fs.
Proof.
  induction fs as [| f fs IH]; intros Hne Hall; [contradiction |].
  inversion Hall as [| ? ? Hf Hfs]; subst.
  destruct fs as [| f' fs].
  - unfold Text.split, Text.join. cbn [String.concat].
    rewrite split_from_last by exact Hf. cbn [rev app].
    rewrite string_of_list_ascii_of_string. reflexivity.
  - rewrite join_cons. unfold Text.split.
    rewrite list_ascii_app. 
    change (list_ascii_of_string ("," ++ Text.join "," (f' :: fs)))
      with (Text.comma :: list_ascii_of_string (Text.join "," (f' :: fs))).
    rewrite split_from_field by exact Hf. cbn [rev app].
    rewrite string_of_list_ascii_of_string. f_equal.
    apply IH; [discriminate | exact Hfs].
Qed.

Lemma lstrip_head (c : ascii) (l : list ascii) :
  Text.is_space c = false -> Text.lstrip (c :: l) = c :: l.
Proof. intros Hc. cbn. rewrite Hc. reflexivity. Qed.

Lemma lstrip_nonspace (l : list ascii) :
  Forall (fun c => Text.is_space c = false) l -> Text.lstrip l = l.
Proof.
  destruct l as [| c l]; [reflexivity |]. intros Hall.
  apply lstrip_head. inversion Hall; assumption.
Qed.

Lemma strip_chars (l : list ascii) :
  Forall (fun c => Text.is_space c = false) l ->
  rev (Text.lstrip (rev (Text.lstrip (l ++ [Text.newline])))) = l.
Proof.
  intros Hall. destruct l as [| c l']; [reflexivity |].
  change ((c :: l') ++ [Text.newline]) with (c :: (l' ++ [Text.newline])).
  rewrite lstrip_head by (inversion Hall; assumption).
  change (c :: (l' ++ [Text.newline])) with ((c :: l') ++ [Text.newline]).
  rewrite rev_app_distr.
  change (Text.lstrip (rev [Text.newline] ++ rev (c :: l')))
    with (Text.lstrip (rev (c :: l'))).
  rewrite lstrip_nonspace by (apply Forall_rev; exact Hall).
  apply rev_involutive.
Qed.

(** Stripping a line made of characters that are not white space, and of
    the newline that ends it, gives the line without the newline. *)
Lemma strip_line (s : string) :
  Forall (fun c => Text.is_space c = false) (list_ascii_of_string s) ->
  Text.strip (s ++ Text.nl) = s.
Proof.
  intros Hall. unfold Text.strip. rewrite list_ascii_app.
  change (list_ascii_of_string Text.nl) with [Text.newline].
  rewrite strip_chars by exact Hall. apply string_of_list_ascii_of_string.
Qed.

Lemma plain_no_comma (f : string) : plain f -> Text.comma ∉ list_ascii_of_string f.
Proof.
  unfold plain. intros Hp Hin.
  apply (proj1 (Forall_forall _ _) Hp) in Hin as [Hc _]. congruence.
Qed.

Lemma join_nonspace (fs : list string) :
  Forall plain fs ->
  Forall (fun c => Text.is_space c = false) (list_ascii_of_string (Text.join "," fs)).
Proof.
  induction fs as [| f fs IH]; intros Hall; [constructor |].
  inversion Hall as [| ? ? Hf Hfs]; subst.
  assert (Hfn : Forall (fun c => Text.is_space c = false) (list_ascii_of_string f)).
  { eapply Forall_impl; [exact Hf |]. intros c [_ Hc]. exact Hc. }
  destruct fs as [| f' fs]; [exact Hfn |].
  rewrite join_cons, list_ascii_app. apply Forall_app. split; [exact Hfn |].
  change (list_ascii_of_string ("," ++ Text.join "," (f' :: fs)))
    with (Text.comma :: list_ascii_of_string (Text.join "," (f' :: fs))).
  constructor; [reflexivity | apply IH; exact Hfs].
Qed.

(** A record of plain fields is read back field by field. *)
Lemma parse_record (fs : list string) :
  fs <> [] -> Forall plain fs ->
  Text.split Text.comma (Text.strip (Text.join "," fs ++ Text.nl)) = fs.
Proof.
  intros Hne Hall. rewrite strip_line by (apply join_nonspace; exact Hall).
  apply split_join; [exact Hne |].
  eapply Forall_impl; [exact Hall |]. intros f. apply plain_no_comma.
Qed.

Lemma plain_char_digit (d : N) : plain_char (pretty_N_char d).
Proof.
  unfold pretty_N_char.
  repeat match goal with |- context [match ?x with _ => _ end] => destruct x end;
    split; (discriminate || reflexivity).
Qed.

Lemma plain_pretty_N_go (n : N) :
  forall s : string, plain s -> plain (pretty_N_go n s).
Proof.
  induction (N.lt_wf_0 n) as [n _ IH]. intros s Hs.
  destruct (decide (n = 0%N)) as [-> | Hn]; [rewrite pretty_N_go_0; exact Hs |].
  rewrite pretty_N_go_step by lia. apply IH.
  - apply N.div_lt; lia.
  - constructor; [apply plain_char_digit | exact Hs].
Qed.

Lemma plain_pretty_N (n : N) : plain (pretty n).
Proof.
  unfold pretty, pretty_N. destruct (decide (n = 0%N)).
  - repeat constructor; discriminate.
  - apply plain_pretty_N_go. constructor.
Qed.

Lemma plain_pretty_Z (z : Z) : plain (pretty z).
Proof.
  destruct z as [| p | p]; unfold pretty, pretty_Z.
  - repeat constructor; discriminate.
  - apply plain_pretty_N.
  - unfold plain. rewrite list_ascii_app. apply Forall_app. split.
    + repeat constructor; discriminate.
    + apply plain_pretty_N.
Qed.
End TextFacts.

Section Records.
Context {T : Type} {arith : Arith T} {trig : Trig T} {runtime : Runtime T}.

(** X11: what the body of the loop of [map_colors] does to a record of
    nine plain fields (no comma, no white space), for a ball whose final
    position is inside the image: the first six fields are written back as
    they are, and the three colour fields are replaced by the sample. *)
Theorem recolor_record (im : Image) (b : Ball T) (fs : list string) (rgb : Z * Z * Z) :
  length fs = 9%nat -> Forall plain fs ->
  getpixel im (to_int (x (position b))) (to_int (y (position b))) = Ok rgb ->
  recolor im b (Text.join "," fs ++ Text.nl)
  = Ok (Text.join "," (take 6 fs ++ [pretty rgb.1.1; pretty rgb.1.2; pretty rgb.2])
        ++ Text.nl)%string.
Proof.
  intros Hlen Hall Hpix. unfold recolor. rewrite Hpix. cbn [bind].
  rewrite parse_record; [| destruct fs; [discriminate | discriminate] | exact Hall].
  rewrite (drop_ge fs 9) by lia. rewrite app_nil_r. reflexivity.
Qed.


Lemma spawn_record_parts (n : Z) (b : Ball T) :
  (forall v : T, plain (repr v)) ->
  exists fs : list string,
    spawn_record n b = (Text.join "," fs ++ Text.nl)%string /\
    length fs = 9%nat /\ Forall plain fs /\
    forall c : Z * Z * Z,
      spawn_record n (with_color b c)
      = (Text.join "," (take 6 fs ++ [pretty c.1.1; pretty c.1.2; pretty c.2])
         ++ Text.nl)%string.
Proof.
  intros repr_plain.
  eexists. split; [reflexivity |]. split; [reflexivity |]. split.
  - repeat constructor; auto using plain_pretty_Z.
  - intros c. reflexivity.
Qed.

Lemma recolor_spawn_record (im : Image) (b bf : Ball T) (n : Z) (rgb : Z * Z * Z) :
  (forall v : T, plain (repr v)) ->
  getpixel im (to_int (x (position bf))) (to_int (y (position bf))) = Ok rgb ->
  recolor im bf (spawn_record n b) = Ok (spawn_record n (with_color b rgb)).
Proof.
  intros repr_plain Hpix.
  destruct (spawn_record_parts n b repr_plain) as (fs & -> & Hlen & Hall & Hc).
  rewrite Hc. unfold recolor. rewrite Hpix. cbn [bind].
  rewrite parse_record; [| destruct fs; discriminate | exact Hall].
  rewrite (drop_ge fs 9) by lia. rewrite app_nil_r. reflexivity.
Qed.

Lemma readlines_from_line (body : list ascii) :
  forall cur rest : list ascii,
    Text.newline ∉ body ->
    Text.readlines_from cur (body ++ Text.newline :: rest)
    = string_of_list_ascii (rev cur ++ body ++ [Text.newline])
      :: Text.readlines_from [] rest.
Proof.
  induction body as [| c body IH]; intros cur rest Hb; cbn [app Text.readlines_from].
  - rewrite Ascii.eqb_refl. cbn [rev]. reflexivity.
  - apply not_elem_of_cons in Hb as [Hc Hb].
    destruct (Ascii.eqb_spec c Text.newline) as [-> | _]; [contradiction |].
    rewrite IH by exact Hb. cbn [rev]. rewrite <- app_assoc. reflexivity.
Qed.

Lemma universal_newlines_line (body : list ascii) :
  forall rest : list ascii,
    Text.carriage_return ∉ body ->
    Text.universal_newlines (body ++ Text.newline :: rest)
    = body ++ Text.newline :: Text.universal_newlines rest.
Proof.
  induction body as [| c body IH]; intros rest Hb; [reflexivity |].
  apply not_elem_of_cons in Hb as [Hc Hb].
  cbn [app Text.universal_newlines].
  destruct (Ascii.eqb_spec c Text.carriage_return) as [-> | _]; [contradiction |].
  rewrite IH by exact Hb. reflexivity.
Qed.

Lemma readlines_cons (body rest : string) :
  Text.newline ∉ list_ascii_of_string body ->
  Text.carriage_return ∉ list_ascii_of_string body ->
  Text.readlines (body ++ Text.nl ++ rest)
  = (body ++ Text.nl)%string :: Text.readlines rest.
Proof.
  intros Hb Hcr. unfold Text.readlines. rewrite list_ascii_app.
  change (list_ascii_of_string (Text.nl ++ rest))
    with (Text.newline :: list_ascii_of_string rest).
  rewrite universal_newlines_line by exact Hcr.
  rewrite readlines_from_line by exact Hb. cbn [rev app]. f_equal.
  rewrite string_of_list_ascii_app, string_of_list_ascii_of_string. reflexivity.
Qed.

Lemma readlines_trace_of (spawned : list (Ball T)) :
  (forall v : T, plain (repr v)) ->
  Text.readlines (trace_of spawned)
  = (fun b => spawn_record (step_added b) b) <$> spawned.
Proof.
  intros repr_plain.
  induction spawned as [| b spawned IH]; [reflexivity |].
  change (trace_of (b :: spawned))
    with (spawn_record (step_added b) b ++ trace_of spawned)%string.
  destruct (spawn_record_parts (step_added b) b repr_plain) as (fs & Hrec & _ & Hall & _).
  apply join_nonspace in Hall.
  rewrite Hrec, string_app_assoc, readlines_cons;
    [cbn [fmap list_fmap]; rewrite IH, Hrec; reflexivity | |];
    intros Hin; apply (proj1 (Forall_forall _ _) Hall) in Hin; discriminate.
Qed.

Lemma recolor_all_trace (im : Image) (spawned : list (Ball T)) :
  (forall v : T, plain (repr v)) ->
  forall (finals : list (Ball T)) (colors : list (Z * Z * Z)),
    Forall2 (fun b c => getpixel im (to_int (x (position b))) (to_int (y (position b)))
                        = Ok c) finals colors ->
    recolor_all im ((fun b => spawn_record (step_added b) b) <$> spawned) finals
    = Ok (trace_of (zip_with with_color spawned colors)).
Proof.
  intros repr_plain.
  induction spawned as [| b spawned IH]; intros finals colors Hf; [reflexivity |].
  destruct Hf as [| bf c finals colors Hpix Hf]; [reflexivity |].
  cbn [fmap list_fmap recolor_all zip_with].
  rewrite (recolor_spawn_record im b bf (step_added b) c repr_plain Hpix). cbn [bind].
  rewrite (IH finals colors Hf). cbn [bind]. reflexivity.
Qed.

Lemma map_colors_text_trace (s : Simulation T) (im : Image)
    (spawned : list (Ball T)) (colors : list (Z * Z * Z)) :
  (forall v : T, plain (repr v)) ->
  spawns_csv s = Some (trace_of spawned) ->
  Forall2 (fun b c => getpixel im (to_int (x (position b))) (to_int (y (position b)))
                      = Ok c) (sorted_by_step (balls s)) colors ->
  map_colors_text s im = Ok (trace_of (zip_with with_color spawned colors)).
Proof.
  intros repr_plain Hfile Hpix. unfold map_colors_text. rewrite Hfile.
  rewrite (readlines_trace_of spawned repr_plain).
  apply recolor_all_trace; assumption.
Qed.

(** X12: [map_colors] on the trace of a list of spawned balls, when floats
    are written without comma or white space and every sample succeeds:
    the file is rewritten as the trace of the same balls, the i-th with the
    colour sampled at the final position of the i-th live ball in creation
    order.  Records and live balls are paired as far as both last: records
    beyond the live balls are dropped from the file. *)
Theorem map_colors_rewrites_trace (s : Simulation T) (im : Image)
    (spawned : list (Ball T)) (colors : list (Z * Z * Z)) :
  (forall v : T, plain (repr v)) ->
  input_image s = Some im ->
  spawns_csv s = Some (trace_of spawned) ->
  Forall2 (fun b c => getpixel im (to_int (x (position b))) (to_int (y (position b)))
                      = Ok c) (sorted_by_step (balls s)) colors ->
  map_colors s
  = Returned (set_spawns_csv s (Some (trace_of (zip_with with_color spawned colors)))).
Proof.
  intros repr_plain Him Hfile Hpix. unfold map_colors. rewrite Him.
  rewrite (map_colors_text_trace s im spawned colors repr_plain Hfile Hpix).
  reflexivity.
Qed.

(** The colour that the sampler gives for a ball: a coordinate is taken
    modulo the size of the image. *)
Lemma sample_all (im : Image) (bs : list (Ball T)) :
  (Forall (fun b => (- WIDTH <= to_int (x (position b)) < WIDTH)%Z /\
                    (- HEIGHT <= to_int (y (position b)) < HEIGHT)%Z) bs /\
   Forall2 (fun b c => getpixel im (to_int (x (position b))) (to_int (y (position b)))
                       = Ok c)
           bs ((fun b => im (to_int (x (position b)) mod WIDTH)%Z
                            (to_int (y (position b)) mod HEIGHT)%Z) <$> bs))
  \/ (exists (i : nat) (b : Ball T),
         bs !! i = Some b /\
         (WIDTH <= to_int (x (position b)) \/ HEIGHT <= to_int (y (position b))
          \/ to_int (x (position b)) < - WIDTH
          \/ to_int (y (position b)) < - HEIGHT)%Z).
Proof.
  induction bs as [| b bs IH]; [left; split; constructor |].
  destruct (decide ((- WIDTH <= to_int (x (position b)) < WIDTH)%Z /\
                    (- HEIGHT <= to_int (y (position b)) < HEIGHT)%Z)) as [Hin | Hout].
  - destruct IH as [[Hall Hpix] | (i & b' & Hb' & Hbeyond)].
    + left. split; [constructor; assumption |].
      cbn [fmap list_fmap]. constructor; [| exact Hpix].
      destruct Hin as [Hx Hy]. exact (getpixel_wrapped im _ _ Hx Hy).
    + right. exists (S i), b'. split; assumption.
  - right. exists 0%nat, b. split; [reflexivity | lia].
Qed.

(** X13: [calculate_positions] on a new simulation with a color source,
    once the loop has returned, has one of two outcomes.  Either every
    final position, truncated, has its x from [-WIDTH] up to but not
    including [WIDTH] and its y from [-HEIGHT] up to but not including
    [HEIGHT]: then the file it leaves is the trace of the balls as they
    were spawned, each with the colour of the pixel at the final position
    of that same ball taken modulo the size of the image, so that a
    negative coordinate counts from the far edge.  Or some coordinate is
    beyond this range: then it raises IndexError, leaving the file with the
    trace and its placeholder colours. *)
Theorem calculate_positions_outcome (h : bool) (im : Image) (a : RNG)
    (f : option string) (s' : Simulation T) (buf' : string) :
  (forall v : T, plain (repr v)) ->
  run_loop (Simulation_init h (Some im) a f) = Ok (s', buf') ->
  exists spawned : list (Ball T),
    buf' = trace_of spawned /\
    immutable <$> spawned = immutable <$> balls s' /\
    ((Forall (fun b => (- WIDTH <= to_int (x (position b)) < WIDTH)%Z /\
                       (- HEIGHT <= to_int (y (position b)) < HEIGHT)%Z) (balls s') /\
      calculate_positions (Simulation_init h (Some im) a f)
      = Returned
          (set_spawns_csv s'
             (Some (trace_of
                      (zip_with with_color spawned
                         ((fun b => im (to_int (x (position b)) mod WIDTH)%Z
                                       (to_int (y (position b)) mod HEIGHT)%Z)
                            <$> balls s'))))))
     \/ ((exists (i : nat) (b : Ball T),
             balls s' !! i = Some b /\
             (WIDTH <= to_int (x (position b)) \/ HEIGHT <= to_int (y (position b))
              \/ to_int (x (position b)) < - WIDTH
              \/ to_int (y (position b)) < - HEIGHT)%Z) /\
         calculate_positions (Simulation_init h (Some im) a f)
         = Raised IndexError (Some buf'))).
Proof.
  intros repr_plain Hrun.
  destruct (run_loop_census h (Some im) a f s' buf' Hrun)
    as (spawned & _ & Hsteps & Hbuf & Himm & _).
  exists spawned. split; [exact Hbuf |]. split; [exact Himm |].
  assert (Him : input_image s' = Some im)
    by exact (loop_input_image _ _ _ _ _ Hrun).
  assert (Hsorted : sorted_by_step (balls s') = balls s')
    by exact (sorted_by_step_seq _ _ Hsteps).
  unfold calculate_positions. rewrite Hrun. cbv zeta.
  change (input_image (set_spawns_csv s' (Some buf'))) with (input_image s').
  rewrite Him.
  destruct (sample_all im (balls s')) as [[Hall Hpix] | (i & b & Hb & Hbeyond)].
  - left. split; [exact Hall |].
    unfold map_colors.
    change (input_image (set_spawns_csv s' (Some buf'))) with (input_image s').
    rewrite Him.
    erewrite (map_colors_text_trace _ im spawned _ repr_plain).
    + reflexivity.
    + cbn [spawns_csv set_spawns_csv]. rewrite Hbuf. reflexivity.
    + change (balls (set_spawns_csv s' (Some buf'))) with (balls s').
      rewrite Hsorted. exact Hpix.
  - right. split; [exists i, b; split; assumption |].
    assert (Hlen : length spawned = length (balls s')).
    { rewrite <- (length_fmap immutable spawned), Himm. apply length_fmap. }
    destruct (lookup_lt_is_Some_2 spawned i) as [b0 Hb0].
    { rewrite Hlen. exact (lookup_lt_Some _ _ _ Hb). }
    apply (map_colors_raises _ im buf' i b (spawn_record (step_added b0) b0)).
    + exact Him.
    + reflexivity.
    + change (balls (set_spawns_csv s' (Some buf'))) with (balls s').
      rewrite Hsorted. exact Hb.
    + rewrite Hbuf, (readlines_trace_of spawned repr_plain), list_lookup_fmap, Hb0.
      reflexivity.
    + apply getpixel_outside. exact Hbeyond.
Qed.
End Records.

Lemma recolor_record_witness :
  recolor (fun _ _ => (10, 20, 30)%Z) (ball_of 640 480 5 0)
          (Text.join "," ["7"; "500.0"; "500.0"; "5.0"; "499.5"; "500.0"; "80"; "81"; "82"]
           ++ Text.nl)
  = Ok (Text.join "," ["7"; "500.0"; "500.0"; "5.0"; "499.5"; "500.0"; "10"; "20"; "30"]
        ++ Text.nl)%string.
Proof.
  apply (recolor_record (fun _ _ => (10, 20, 30)%Z) (ball_of 640 480 5 0)
           ["7"; "500.0"; "500.0"; "5.0"; "499.5"; "500.0"; "80"; "81"; "82"]%string
           (10, 20, 30)%Z).
  - reflexivity.
  - repeat constructor; discriminate.
  - cbn [to_int real_arith x y position ball_of new_ball].
    rewrite !Rtrunc_IZR. reflexivity.
Defined.

Lemma map_colors_rewrites_trace_witness :
  map_colors settled_simulation
  = Returned (set_spawns_csv settled_simulation
                (Some (trace_of (runtime := midpoint_runtime)
                         [with_color (ball_of 500 500 5 0) (10, 20, 30)%Z]))).
Proof.
  apply (map_colors_rewrites_trace (runtime := midpoint_runtime)
           settled_simulation (fun _ _ => (10, 20, 30)%Z)
           [ball_of 500 500 5 0] [(10, 20, 30)%Z]).
  - intros v. repeat constructor; discriminate.
  - reflexivity.
  - reflexivity.
  - repeat constructor.
    cbn [to_int real_arith x y position ball_of new_ball].
    rewrite !Rtrunc_IZR. reflexivity.
Defined.

Lemma calculate_positions_outcome_witness :
  exists (s' : Simulation R) (buf' : string),
    run_loop (Simulation_init (runtime := midpoint_runtime)
                true (Some (fun _ _ => (10, 20, 30)%Z)) O None) = Ok (s', buf')
    /\ exists spawned : list (Ball R),
         buf' = trace_of (runtime := midpoint_runtime) spawned.
Proof.
  destruct (core_run_completes (runtime := midpoint_runtime)
              true (Some (fun _ _ => (10, 20, 30)%Z)) O None)
    as (s' & buf' & Hrun & _).
  exists s', buf'. split; [exact Hrun |].
  destruct (calculate_positions_outcome (runtime := midpoint_runtime)
              true (fun _ _ => (10, 20, 30)%Z) O None s' buf')
    as (spawned & Hbuf & _).
  - intros v. repeat constructor; discriminate.
  - exact Hrun.
  - exists spawned. exact Hbuf.
Defined.
